(** * w4tty: the markup translation pipeline of the Wattpad-to-PDF exporter

    A shallow embedding of [w4tty.py]: the alignment resolver
    ([_extract_alignment]), the inline renderer ([_render_node]), the block
    renderer ([_render_blocks_from_node]) and the order of network requests
    in [main].

    Python strings are sequences of Unicode code points, so a string is a
    list of code points here.  Literals are written [lit "..."]. *)

From Stdlib Require Import List NArith Bool String Ascii Lia.
Import ListNotations.

Open Scope N_scope.
Open Scope list_scope.

(** ** Python strings *)

Definition str := list N.

Definition lit (s : string) : str :=
  map N_of_ascii (list_ascii_of_string s).

(** The double quote character, U+0022. *)
Definition dq : str := [34].

Fixpoint str_eqb (a b : str) : bool :=
  match a, b with
  | [], [] => true
  | x :: a', y :: b' => (x =? y) && str_eqb a' b'
  | _, _ => false
  end.

(** Truthiness of a string: [if s:] holds for a non-empty string. *)
Definition truthy (s : str) : bool :=
  match s with [] => false | _ :: _ => true end.

(** Truthiness of a list: [if l:] holds for a non-empty list. *)
Definition nonempty {A : Type} (l : list A) : bool :=
  match l with [] => false | _ :: _ => true end.

(** [name in {...}] for a set of string literals. *)
Definition str_in (s : str) (l : list str) : bool := existsb (str_eqb s) l.

(** [s.startswith(p)] *)
Fixpoint startswith (s p : str) : bool :=
  match p, s with
  | [], _ => true
  | x :: p', y :: s' => (x =? y) && startswith s' p'
  | _ :: _, [] => false
  end.

(** [sub in s] *)
Fixpoint contains (sub s : str) : bool :=
  startswith s sub ||
  match s with
  | [] => false
  | _ :: s' => contains sub s'
  end.

(** [s.replace(c, r)] for a one-character [c]. *)
Definition replace_char (c : N) (r : str) (s : str) : str :=
  flat_map (fun x => if x =? c then r else [x]) s.

(** [s.split(sep)] for a one-character separator. *)
Fixpoint split (sep : N) (s : str) : list str :=
  match s with
  | [] => [[]]
  | c :: s' =>
      if c =? sep then [] :: split sep s'
      else match split sep s' with
           | h :: t => (c :: h) :: t
           | [] => [[c]]
           end
  end.

(** [s.partition(sep)] for a one-character separator: the text before the
    first separator and the text after it (empty when there is none). *)
Fixpoint partition (sep : N) (s : str) : str * str :=
  match s with
  | [] => ([], [])
  | c :: s' =>
      if c =? sep then ([], s')
      else let '(b, a) := partition sep s' in (c :: b, a)
  end.

(** [str.isspace] on one code point (CPython's [_PyUnicode_IsWhitespace]). *)
Definition isspace (c : N) : bool :=
  ((9 <=? c) && (c <=? 13)) || ((28 <=? c) && (c <=? 32)) ||
  (c =? 133) || (c =? 160) || (c =? 5760) ||
  ((8192 <=? c) && (c <=? 8202)) || (c =? 8232) || (c =? 8233) ||
  (c =? 8239) || (c =? 8287) || (c =? 12288).

Fixpoint lstrip (s : str) : str :=
  match s with
  | [] => []
  | c :: s' => if isspace c then lstrip s' else s
  end.

Definition rstrip (s : str) : str := rev (lstrip (rev s)).

(** [s.strip()] *)
Definition strip (s : str) : str := rstrip (lstrip s).

(** [html.escape(s, quote)] as the standard library writes it: successive
    replacements, the ampersand first. *)
Definition html_escape (quote : bool) (s : str) : str :=
  let s := replace_char 38 (lit "&amp;") s in
  let s := replace_char 60 (lit "&lt;") s in
  let s := replace_char 62 (lit "&gt;") s in
  if quote
  then replace_char 39 (lit "&#x27;") (replace_char 34 (lit "&quot;") s)
  else s.

(** A dict with string keys, in insertion order. *)
Fixpoint dict_get (d : list (str * str)) (k : str) : option str :=
  match d with
  | [] => None
  | (k', v) :: d' => if str_eqb k k' then Some v else dict_get d' k
  end.

(** [str.lower] restricted to what it does on ASCII text: the letters A-Z
    are mapped to a-z and every other code point is kept.  The renderers
    below take [str.lower] as a parameter; this instance is the one used
    on the ASCII inputs of the scenarios. *)
Definition ascii_lower_cp (c : N) : N :=
  if (65 <=? c) && (c <=? 90) then c + 32 else c.

Definition ascii_lower (s : str) : str := map ascii_lower_cp s.

(** ** Module constants *)

Definition ALIGN_VALUE_MAP : list (str * str) :=
  [ (lit "left", lit "L"); (lit "center", lit "C");
    (lit "right", lit "R"); (lit "justify", lit "J") ].

Definition ALIGN_WORD_MAP : list (str * str) :=
  [ (lit "L", lit "left"); (lit "C", lit "center");
    (lit "R", lit "right"); (lit "J", lit "justify") ].

(** [YI_RANGE_PATTERN]'s character class, U+A000 to U+A48F. *)
Definition is_yi (c : N) : bool := (40960 <=? c) && (c <=? 42127).

Definition yi_open : str := lit "<font face=" ++ dq ++ lit "NotoSansYi" ++ dq ++ lit ">".
Definition yi_close : str := lit "</font>".

(** The replacement of one match of [YI_RANGE_PATTERN]. *)
Definition repl (group1 : str) : str := yi_open ++ group1 ++ yi_close.

(** What is emitted when a run of matched characters ends. *)
Definition flush (run : str) : str :=
  match run with [] => [] | _ :: _ => repl run end.

(** [YI_RANGE_PATTERN.sub(repl, text)]: the pattern is a greedy [+] over one
    character class, so scanning left to right every match is a maximal
    run; [run] holds the characters of the match being read. *)
Fixpoint yi_sub (run : str) (text : str) : str :=
  match text with
  | [] => flush run
  | c :: text' =>
      if is_yi c then yi_sub (run ++ [c]) text'
      else flush run ++ c :: yi_sub [] text'
  end.

Definition _wrap_yi_sequences (text : str) : str := yi_sub [] text.

(** ** Parsed markup

    A node of the parsed tree is a text leaf ([NavigableString]), an
    element ([Tag]) or anything else.  Of a tag's attribute dict the record
    keeps the keys the program reads; [class] is multi-valued, so its value
    is a list of tokens. *)

Record attrs := mk_attrs {
  at_style : option str;
  at_align : option str;
  at_class : option (list str);
  at_href : option str;
  at_face : option str;
  at_data_font : option str;
  at_color : option str
}.

Definition no_attrs : attrs := mk_attrs None None None None None None None.

#[warnings="-register-all"] Inductive node :=
| Text (text : str)
| Element (name : str) (a : attrs) (children : list node)
| Other.

(** [x or ""] for an attribute that may be absent. *)
Definition or_empty (x : option str) : str :=
  match x with Some s => s | None => [] end.

(** [x or y] on attribute values. *)
Definition py_or (x y : option str) : option str :=
  if truthy (or_empty x) then x else y.

Definition or_nil (x : option (list str)) : list str :=
  match x with Some l => l | None => [] end.

(** [sep.join(parts)] for the empty separator. *)
Definition join (parts : list str) : str := List.concat parts.

(** [f"<{tag_name}>{content}</{tag_name}>"] *)
Definition apply_wrapper (content tag_name : str) : str :=
  lit "<" ++ tag_name ++ lit ">" ++ content ++ lit "</" ++ tag_name ++ lit ">".

Section Renderer.

(** [str.lower], a function of the Python runtime. *)
Variable lower : str -> str.

(** *** Alignment resolver *)

(** The loop over the segments of the style attribute. *)
Fixpoint style_alignment (segments : list str) : option str :=
  match segments with
  | [] => None
  | segment :: rest =>
      let segment := strip segment in
      if startswith segment (lit "text-align") then
        let value := strip (snd (partition 58 segment)) in
        match dict_get ALIGN_VALUE_MAP value with
        | Some letter => Some letter
        | None => style_alignment rest
        end
      else style_alignment rest
  end.

(** The loop over the class tokens. *)
Fixpoint class_alignment (classes : list str) : option str :=
  match classes with
  | [] => None
  | cls :: rest =>
      if contains (lit "center") cls then Some (lit "C")
      else if contains (lit "right") cls then Some (lit "R")
      else if contains (lit "justify") cls then Some (lit "J")
      else class_alignment rest
  end.

Definition _extract_alignment (tag : attrs) : str :=
  let style_value := lower (or_empty (at_style tag)) in
  match style_alignment (split 59 style_value) with
  | Some letter => letter
  | None =>
      let align_attr := lower (or_empty (at_align tag)) in
      match dict_get ALIGN_VALUE_MAP align_attr with
      | Some letter => letter
      | None =>
          let classes := map lower (or_nil (at_class tag)) in
          match class_alignment classes with
          | Some letter => letter
          | None => lit "L"
          end
      end
  end.

(** *** Inline renderer *)

(** The wrapping steps of [_render_node], from the first test on [name] to
    the final [return inner]. *)
Definition wrap_element (name : str) (a : attrs) (inner : str) : str :=
  let style_attr := lower (or_empty (at_style a)) in
  let classes := map lower (or_nil (at_class a)) in
  let inner := if str_in name [lit "b"; lit "strong"] then apply_wrapper inner (lit "b") else inner in
  let inner := if str_in name [lit "i"; lit "em"] then apply_wrapper inner (lit "i") else inner in
  let inner := if str_eqb name (lit "u") then apply_wrapper inner (lit "u") else inner in
  let inner := if str_in name [lit "sup"; lit "sub"] then apply_wrapper inner name else inner in
  let inner := if contains (lit "font-weight") style_attr && contains (lit "bold") style_attr
               then apply_wrapper inner (lit "b") else inner in
  let inner := if contains (lit "font-style") style_attr && contains (lit "italic") style_attr
               then apply_wrapper inner (lit "i") else inner in
  let inner := if contains (lit "text-decoration") style_attr && contains (lit "underline") style_attr
               then apply_wrapper inner (lit "u") else inner in
  let inner := if existsb (contains (lit "bold")) classes then apply_wrapper inner (lit "b") else inner in
  let inner := if existsb (contains (lit "italic")) classes then apply_wrapper inner (lit "i") else inner in
  let inner := if existsb (contains (lit "underline")) classes then apply_wrapper inner (lit "u") else inner in
  let inner :=
    if str_eqb name (lit "a") && truthy (or_empty (at_href a)) then
      let href := html_escape true (or_empty (at_href a)) in
      lit "<a href=" ++ dq ++ href ++ dq ++ lit ">" ++ inner ++ lit "</a>"
    else inner in
  let font_face := py_or (at_face a) (at_data_font a) in
  let font_face :=
    if negb (truthy (or_empty font_face)) && str_eqb name (lit "span") then
      let data_font := at_data_font a in
      if truthy (or_empty data_font) then data_font else font_face
    else font_face in
  let inner :=
    if truthy (or_empty font_face) then
      let face := html_escape true (or_empty font_face) in
      lit "<font face=" ++ dq ++ face ++ dq ++ lit ">" ++ inner ++ lit "</font>"
    else inner in
  let inner :=
    if str_eqb name (lit "font") && truthy (or_empty (at_color a)) then
      let color := html_escape true (or_empty (at_color a)) in
      lit "<font color=" ++ dq ++ color ++ dq ++ lit ">" ++ inner ++ lit "</font>"
    else inner in
  inner.

Fixpoint _render_node (n : node) : str :=
  match n with
  | Text text =>
      if negb (truthy text) then []
      else
        let text := replace_char 160 (lit " ") text in
        let escaped := html_escape false text in
        _wrap_yi_sequences escaped
  | Other => []
  | Element nm a children =>
      let name := lower nm in
      if str_eqb name (lit "br") then lit "<br/>"
      else if str_eqb name (lit "hr") then lit "<hr/>"
      else
        let inner := join (map _render_node children) in
        if negb (truthy inner) && negb (str_in name [lit "img"]) then []
        else wrap_element name a inner
  end.

Definition _render_inline_children (children : list node) : str :=
  join (map _render_node children).

(** *** Block renderer *)

(** Lines 256-258: the node's own alignment, replaced by the inherited one
    when it is ["L"]. *)
Definition resolve_alignment (a : attrs) (inherited_align : str) : str :=
  let node_align := _extract_alignment a in
  if str_eqb node_align (lit "L") then inherited_align else node_align.

(** [ALIGN_WORD_MAP.get(node_align, "left")] *)
Definition align_word_of (node_align : str) : str :=
  match dict_get ALIGN_WORD_MAP node_align with
  | Some w => w
  | None => lit "left"
  end.

(** Line 260. *)
Definition align_attr_of (node_align : str) : str :=
  if negb (str_eqb node_align (lit "L"))
  then lit " align=" ++ dq ++ align_word_of node_align ++ dq
  else [].

(** [node.find_all("li", recursive=False)]: the child elements named li. *)
Definition is_li (n : node) : bool :=
  match n with
  | Element nm _ _ => str_eqb nm (lit "li")
  | _ => false
  end.

Definition children_of (n : node) : list node :=
  match n with
  | Element _ _ children => children
  | _ => []
  end.

(** The loop of lines 291-294. *)
Definition list_items (lis : list node) : list str :=
  fold_left
    (fun items li =>
       let item_inner := strip (_render_inline_children (children_of li)) in
       if truthy item_inner
       then items ++ [lit "<li>" ++ item_inner ++ lit "</li>"]
       else items)
    lis [].

(** Lines 271-308: the rules that follow the div rule, reached by every
    element that is not a div and by a div without child blocks. *)
Definition element_blocks (name : str) (children : list node) (align_attr : str) : list str :=
  if str_in name [lit "p"; lit "section"; lit "article"] then
    let inner := strip (_render_inline_children children) in
    if truthy inner then [lit "<p" ++ align_attr ++ lit ">" ++ inner ++ lit "</p>"] else []
  else if str_in name [lit "h1"; lit "h2"; lit "h3"; lit "h4"] then
    let inner := strip (_render_inline_children children) in
    if truthy inner
    then [lit "<" ++ name ++ align_attr ++ lit ">" ++ inner ++ lit "</" ++ name ++ lit ">"]
    else []
  else if str_eqb name (lit "blockquote") then
    let inner := strip (_render_inline_children children) in
    if truthy inner
    then [lit "<blockquote" ++ align_attr ++ lit ">" ++ inner ++ lit "</blockquote>"]
    else []
  else if str_in name [lit "ul"; lit "ol"] then
    let items := list_items (filter is_li children) in
    match items with
    | [] => []
    | _ :: _ =>
        let wrapper_open :=
          if truthy align_attr then lit "<div" ++ align_attr ++ lit ">" else [] in
        let wrapper_close := if truthy align_attr then lit "</div>" else [] in
        [wrapper_open ++ lit "<" ++ name ++ lit ">" ++ join items
           ++ lit "</" ++ name ++ lit ">" ++ wrapper_close]
    end
  else if str_eqb name (lit "hr") then [lit "<hr/>"]
  else
    let inner := strip (_render_inline_children children) in
    if truthy inner then [lit "<p" ++ align_attr ++ lit ">" ++ inner ++ lit "</p>"] else [].

Fixpoint _render_blocks_from_node (n : node) (inherited_align : str) : list str :=
  match n with
  | Text _ =>
      let content := strip (_render_node n) in
      if truthy content then
        let align_word := align_word_of inherited_align in
        [lit "<p align=" ++ dq ++ align_word ++ dq ++ lit ">" ++ content ++ lit "</p>"]
      else []
  | Other => []
  | Element nm a children =>
      let name := lower nm in
      let node_align := resolve_alignment a inherited_align in
      let align_attr := align_attr_of node_align in
      if str_eqb name (lit "div") then
        let child_blocks :=
          fold_left
            (fun blocks child => blocks ++ _render_blocks_from_node child node_align)
            children [] in
        if nonempty child_blocks then
          if truthy align_attr
          then map (fun block => lit "<div" ++ align_attr ++ lit ">" ++ block ++ lit "</div>")
                   child_blocks
          else child_blocks
        else element_blocks name children align_attr
      else element_blocks name children align_attr
  end.

End Renderer.

(** ** The run: network requests and failures

    [main] is modelled up to the call of [build_pdf], which makes no
    network request.  The HTTP session and the HTML parser are outside the
    program: a request is answered by [http_get], and the parser hands over
    what the program reads of a page. *)

Inductive exn :=
| ValueError      (* raised by [extract_story_id] *)
| RuntimeError    (* missing title, no parts, empty chapter body *)
| TransportError. (* raised inside the HTTP layer *)

(** One call of [SESSION.get]: the URL and the [id] query parameter. *)
Inductive event :=
| Request (url : str) (id_param : option str).

Record response := mk_response {
  status_raises : bool;        (* [raise_for_status()] raises *)
  content_type : str;          (* the Content-Type header, or the empty string *)
  resp_text : str;             (* [resp.text] *)
  json_text : option str       (* [resp.json().get("text", "")], if it decodes *)
}.

(** What [scrape_story_overview] reads of the parsed overview page. *)
Record overview_page := mk_overview {
  og_title : option str;       (* content of the og:title meta tag *)
  heading_text : option str;   (* stripped text of the first h1 or h2 *)
  title_string : option str;   (* [soup.title.string] *)
  part_anchors : list (str * str) (* href and text of each part link *)
}.

Record part := mk_part { part_id : str; part_title : str; part_url : str }.
Record chapter := mk_chapter { chapter_title : str; chapter_blocks : list str }.

(** A computation that appends to the log of requests and may raise. *)
Definition run (A : Type) : Type := list event -> list event * (exn + A).

Definition ret {A : Type} (x : A) : run A := fun log => (log, inr x).
Definition raise {A : Type} (e : exn) : run A := fun log => (log, inl e).
Definition bind {A B : Type} (c : run A) (k : A -> run B) : run B :=
  fun log =>
    match c log with
    | (log', inr x) => k x log'
    | (log', inl e) => (log', inl e)
    end.

Notation "x <- c1 ;; c2" := (bind c1 (fun x => c2))
  (at level 61, c1 at next level, right associativity).

(** [s.endswith(suffix)] *)
Definition endswith (s suffix : str) : bool := startswith (rev s) (rev suffix).

(** With a value that ends with the suffix, [rsplit(suffix, 1)[0]] is the
    value without its last [len(suffix)] characters. *)
Definition _strip_wattpad_suffix (value : str) : str :=
  let suffix := lit " - Wattpad" in
  if endswith value suffix
  then strip (firstn (List.length value - List.length suffix) value)
  else strip value.

Section Run.

Variable lower : str -> str.

(** [\d] of the [re] module: a Unicode decimal digit. *)
Variable is_digit : N -> bool.

(** [urllib.parse.urljoin]. *)
Variable urljoin : str -> str -> str.

(** [_clean_part_title]: a rewriting of the title text by regular
    expressions, with no effect besides its result. *)
Variable _clean_part_title : str -> str.

(** The network: the answer to a request, [None] when the call raises. *)
Variable http_get : str -> option str -> option response.

(** [BeautifulSoup(text, "html.parser")] on the overview page and on a
    chapter body ([soup.contents]). *)
Variable parse_overview : str -> overview_page.
Variable parse_html : str -> list node.

(** [re.match(r"^\d+", p)] *)
Definition starts_with_digit (p : str) : bool :=
  match p with
  | c :: _ => is_digit c
  | [] => false
  end.

Definition extract_story_id (url : str) : exn + str :=
  let parts := filter truthy (split 47 url) in
  match find starts_with_digit (rev parts) with
  | Some story_fragment => inr (hd [] (split 45 story_fragment))
  | None => inl ValueError
  end.

(** [SESSION.get(...)] followed by [resp.raise_for_status()]. *)
Definition session_get (url : str) (id_param : option str) : run response :=
  fun log =>
    let log := log ++ [Request url id_param] in
    match http_get url id_param with
    | None => (log, inl TransportError)
    | Some resp =>
        if status_raises resp then (log, inl TransportError) else (log, inr resp)
    end.

Definition storytext_url : str := lit "https://www.wattpad.com/apiv2/storytext".

Definition fetch_part_blocks (part_id : str) : run (list str) :=
  resp <- session_get storytext_url (Some part_id) ;;
  let content_type := lower (content_type resp) in
  body <- (if contains (lit "json") content_type
           then match json_text resp with
                | Some t => ret t
                | None => raise TransportError
                end
           else ret (resp_text resp)) ;;
  if negb (truthy (strip body)) then raise RuntimeError
  else
    let soup := parse_html body in
    ret (fold_left
           (fun blocks child =>
              blocks ++ _render_blocks_from_node lower child (lit "L"))
           soup []).

(** Lines 341-354: the title, from the first source that gives one. *)
Definition page_title (page : overview_page) : option str :=
  let title :=
    match og_title page with
    | Some content_attr => Some (_strip_wattpad_suffix content_attr)
    | None => None
    end in
  let title :=
    if negb (truthy (or_empty title)) then
      match heading_text page with
      | Some h => Some (_strip_wattpad_suffix h)
      | None => title
      end
    else title in
  let title :=
    if negb (truthy (or_empty title)) then
      match title_string page with
      | Some s => Some (_strip_wattpad_suffix (strip s))
      | None => title
      end
    else title in
  if negb (truthy (or_empty title)) then None else title.

(** Lines 356-366: the loop over the part links. *)
Fixpoint scrape_parts (url : str) (anchors : list (str * str)) (parts : list part)
  : exn + list part :=
  match anchors with
  | [] => inr parts
  | (href_attr, text) :: rest =>
      let part_url := urljoin url href_attr in
      match extract_story_id part_url with
      | inl e => inl e
      | inr part_id =>
          let part_title := _clean_part_title text in
          scrape_parts url rest (parts ++ [mk_part part_id part_title part_url])
      end
  end.

Definition scrape_story_overview (url : str) : run (str * list part) :=
  resp <- session_get url None ;;
  let soup := parse_overview (resp_text resp) in
  match page_title soup with
  | None => raise RuntimeError
  | Some title =>
      match scrape_parts url (part_anchors soup) [] with
      | inl e => raise e
      | inr [] => raise RuntimeError
      | inr parts => ret (title, parts)
      end
  end.

(** The loop of [main] over the parts. *)
Fixpoint fetch_chapters (parts : list part) (chapters : list chapter)
  : run (list chapter) :=
  match parts with
  | [] => ret chapters
  | p :: rest =>
      let part_id := part_id p in
      let part_title :=
        _clean_part_title
          (if truthy (part_title p) then part_title p else lit "Part " ++ part_id) in
      blocks <- fetch_part_blocks part_id ;;
      fetch_chapters rest (chapters ++ [mk_chapter part_title blocks])
  end.

(** [main], returning the arguments it passes to [build_pdf]. *)
Definition main (url : str) : run (str * list chapter) :=
  r <- scrape_story_overview url ;;
  let '(story_title, parts) := r in
  chapters <- fetch_chapters parts [] ;;
  ret (story_title, chapters).

End Run.

(** [\d] on ASCII text. *)
Definition ascii_digit (c : N) : bool := (48 <=? c) && (c <=? 57).

(** ** Scenarios of the specification, on ASCII input *)

Definition render_inline := _render_node ascii_lower.
Definition render_blocks := _render_blocks_from_node ascii_lower.

Definition elem (name : string) (a : attrs) (children : list node) : node :=
  Element (lit name) a children.
Definition txt (s : string) : node := Text (lit s).

(** ** The text leaf, as the specification words it *)

(** Non-breaking spaces become plain spaces. *)
Definition normalize_nbsp (text : str) : str :=
  map (fun c => if c =? 160 then 32 else c) text.

(** The entity of one code point: only the ampersand and the two angle
    brackets have one. *)
Definition escape_cp (c : N) : str :=
  if c =? 38 then lit "&amp;"
  else if c =? 60 then lit "&lt;"
  else if c =? 62 then lit "&gt;"
  else [c].

Definition entities : list str := [lit "&amp;"; lit "&lt;"; lit "&gt;"].

(** Inline markup in which every ampersand and angle bracket belongs to an
    entity or to one of the two fallback-font tags. *)
Inductive escaped_markup : str -> Prop :=
| em_nil : escaped_markup []
| em_plain c s :
    c <> 38 -> c <> 60 -> c <> 62 -> escaped_markup s -> escaped_markup (c :: s)
| em_entity e s :
    In e entities -> escaped_markup s -> escaped_markup (e ++ s)
| em_open s : escaped_markup s -> escaped_markup (yi_open ++ s)
| em_close s : escaped_markup s -> escaped_markup (yi_close ++ s).

(** ** The wrapping steps, as a list *)

Inductive wrapper :=
| WTag (tag_name : str)
| WLink (href : str)
| WFace (face : str)
| WColor (color : str).

Definition wrap_with (inner : str) (w : wrapper) : str :=
  match w with
  | WTag tag_name => apply_wrapper inner tag_name
  | WLink href =>
      lit "<a href=" ++ dq ++ html_escape true href ++ dq ++ lit ">" ++ inner ++ lit "</a>"
  | WFace face =>
      lit "<font face=" ++ dq ++ html_escape true face ++ dq ++ lit ">" ++ inner ++ lit "</font>"
  | WColor color =>
      lit "<font color=" ++ dq ++ html_escape true color ++ dq ++ lit ">" ++ inner ++ lit "</font>"
  end.

Definition when (c : bool) (w : wrapper) : list wrapper := if c then [w] else [].

(** A string of whitespace only (the empty string included). *)
Definition ws_only (s : str) : bool := forallb isspace s.

(** [<tag>inner</tag>] for a non-empty [inner], nothing otherwise. *)
Definition bare_block (tag_name inner : str) : list str :=
  if truthy inner then [apply_wrapper inner tag_name] else [].

Section RendererSpec.

Variable lower : str -> str.

Definition bold_by_style (a : attrs) : bool :=
  contains (lit "font-weight") (lower (or_empty (at_style a)))
  && contains (lit "bold") (lower (or_empty (at_style a))).
Definition italic_by_style (a : attrs) : bool :=
  contains (lit "font-style") (lower (or_empty (at_style a)))
  && contains (lit "italic") (lower (or_empty (at_style a))).
Definition underline_by_style (a : attrs) : bool :=
  contains (lit "text-decoration") (lower (or_empty (at_style a)))
  && contains (lit "underline") (lower (or_empty (at_style a))).

Definition by_class (word : str) (a : attrs) : bool :=
  existsb (contains word) (map lower (or_nil (at_class a))).

(** The font face that applies: the face attribute, else the data-font
    attribute. *)
Definition face_of (a : attrs) : str :=
  if truthy (or_empty (at_face a)) then or_empty (at_face a)
  else or_empty (at_data_font a).

(** The wrappers of an element with lowered tag name [name], innermost
    first: those triggered by the tag name, then by the style, then by the
    class, then the link, the font face and the font colour. *)
Definition wrappers (name : str) (a : attrs) : list wrapper :=
  when (str_in name [lit "b"; lit "strong"]) (WTag (lit "b"))
  ++ when (str_in name [lit "i"; lit "em"]) (WTag (lit "i"))
  ++ when (str_eqb name (lit "u")) (WTag (lit "u"))
  ++ when (str_in name [lit "sup"; lit "sub"]) (WTag name)
  ++ when (bold_by_style a) (WTag (lit "b"))
  ++ when (italic_by_style a) (WTag (lit "i"))
  ++ when (underline_by_style a) (WTag (lit "u"))
  ++ when (by_class (lit "bold") a) (WTag (lit "b"))
  ++ when (by_class (lit "italic") a) (WTag (lit "i"))
  ++ when (by_class (lit "underline") a) (WTag (lit "u"))
  ++ when (str_eqb name (lit "a") && truthy (or_empty (at_href a)))
          (WLink (or_empty (at_href a)))
  ++ when (truthy (face_of a)) (WFace (face_of a))
  ++ when (str_eqb name (lit "font") && truthy (or_empty (at_color a)))
          (WColor (or_empty (at_color a))).

(** The three conditions of the specification, whatever triggers them. *)
Definition is_bold (name : str) (a : attrs) : bool :=
  str_in name [lit "b"; lit "strong"] || bold_by_style a || by_class (lit "bold") a.
Definition is_italic (name : str) (a : attrs) : bool :=
  str_in name [lit "i"; lit "em"] || italic_by_style a || by_class (lit "italic") a.
Definition is_underline (name : str) (a : attrs) : bool :=
  str_eqb name (lit "u") || underline_by_style a || by_class (lit "underline") a.

(** *** Nodes without renderable content *)

(** Every descendant text node is empty or whitespace-only. *)
Fixpoint all_text_blank (n : node) : bool :=
  match n with
  | Text text => ws_only text
  | Other => true
  | Element _ _ children => forallb all_text_blank children
  end.

(** The node renders inline to the empty string: its text leaves are
    empty and it holds no br, hr or img element. *)
Fixpoint vanishes (n : node) : bool :=
  match n with
  | Text text => negb (truthy text)
  | Other => true
  | Element nm _ children =>
      negb (str_in (lower nm) [lit "br"; lit "hr"; lit "img"])
      && forallb vanishes children
  end.

(** The node renders inline to whitespace only: its text leaves are
    whitespace, it holds no br or hr element, and an element that holds an
    img element or a non-empty text has no wrapper. *)
Fixpoint collapses (n : node) : bool :=
  match n with
  | Text text => ws_only text
  | Other => true
  | Element nm a children =>
      negb (str_in (lower nm) [lit "br"; lit "hr"])
      && forallb collapses children
      && ((negb (str_in (lower nm) [lit "img"]) && forallb vanishes children)
          || negb (nonempty (wrappers (lower nm) a)))
  end.

(** The node has nothing to show at block level. *)
Definition blank (n : node) : bool :=
  match n with
  | Text text => ws_only text
  | Other => true
  | Element nm _ children =>
      negb (str_eqb (lower nm) (lit "hr")) && forallb collapses children
  end.

(** *** Blocks without an align attribute *)

Definition bare_items (children : list node) : list str :=
  map (fun inner => lit "<li>" ++ inner ++ lit "</li>")
    (filter truthy
       (map (fun li => strip (_render_inline_children lower (children_of li)))
            (filter is_li children))).

(** The block of an element with lowered tag name [name] when nothing
    carries an alignment. *)
Definition bare_element_blocks (name : str) (children : list node) : list str :=
  let inner := strip (_render_inline_children lower children) in
  if str_in name [lit "p"; lit "section"; lit "article"] then bare_block (lit "p") inner
  else if str_in name [lit "h1"; lit "h2"; lit "h3"; lit "h4"] then bare_block name inner
  else if str_eqb name (lit "blockquote") then bare_block (lit "blockquote") inner
  else if str_in name [lit "ul"; lit "ol"] then
    if nonempty (bare_items children)
    then [apply_wrapper (join (bare_items children)) name]
    else []
  else if str_eqb name (lit "hr") then [lit "<hr/>"]
  else bare_block (lit "p") inner.

End RendererSpec.

(** ** Alignment, as the specification words it *)

(** The four alignment values, as the program writes them. *)
Definition alignments : list str := [lit "L"; lit "C"; lit "R"; lit "J"].

(** The alignment one style segment declares, if it is a text-align
    declaration with a recognised value. *)
Definition declared_alignment (segment : str) : option str :=
  if startswith (strip segment) (lit "text-align")
  then dict_get ALIGN_VALUE_MAP (strip (snd (partition 58 (strip segment))))
  else None.

(** The alignment one class token names: center before right before
    justify. *)
Definition class_token_alignment (cls : str) : option str :=
  if contains (lit "center") cls then Some (lit "C")
  else if contains (lit "right") cls then Some (lit "R")
  else if contains (lit "justify") cls then Some (lit "J")
  else None.

(** The first answer of [f] along a list. *)
Fixpoint first_some {A B : Type} (f : A -> option B) (l : list A) : option B :=
  match l with
  | [] => None
  | x :: l' => match f x with Some y => Some y | None => first_some f l' end
  end.

(** The container around one child block of a div. *)
Definition div_wrap (node_align block : str) : str :=
  lit "<div align=" ++ dq ++ align_word_of node_align ++ dq ++ lit ">"
  ++ block ++ lit "</div>".

(** Attribute dicts of the scenarios. *)
Definition with_style (s : string) : attrs :=
  mk_attrs (Some (lit s)) None None None None None None.
Definition with_class (tokens : list string) : attrs :=
  mk_attrs None None (Some (map lit tokens)) None None None None.

(** ** A sample network

    One story whose overview page has a title and one part link, and whose
    part has a one-paragraph body.  The story link carries no number. *)

Definition sample_url : str := lit "https://www.wattpad.com/story/my-story".

Definition sample_urljoin (base href : str) : str :=
  lit "https://www.wattpad.com" ++ href.

Definition sample_http_get (url : str) (id_param : option str) : option response :=
  match id_param with
  | None => Some (mk_response false (lit "text/html") (lit "overview") None)
  | Some _ => Some (mk_response false (lit "text/html") (lit "<p>Hi</p>") None)
  end.

Definition sample_parse_overview (text : str) : overview_page :=
  mk_overview (Some (lit "My Story - Wattpad")) None None
    [(lit "/123456-chapter-one", lit "Chapter One")].

Definition sample_parse_html (body : str) : list node :=
  [elem "p" no_attrs [txt "Hi"]].

Definition sample_main : str -> run (str * list chapter) :=
  main ascii_lower ascii_digit sample_urljoin (fun title => title)
    sample_http_get sample_parse_overview sample_parse_html.

(** A log that continues another one. *)
Definition extends (log log' : list event) : Prop :=
  exists rest, log' = log ++ rest.

(** ** File names and part titles *)

(** Removal of the leading characters that satisfy [p]. *)
Fixpoint drop_while (p : N -> bool) (s : str) : str :=
  match s with
  | [] => []
  | c :: s' => if p c then drop_while p s' else s
  end.

(** Removal of the trailing characters that satisfy [p]. *)
Definition rstrip_by (p : N -> bool) (s : str) : str :=
  rev (drop_while p (rev s)).

Definition char_in (chars : str) (c : N) : bool := existsb (N.eqb c) chars.

(** [s.rstrip(chars)] *)
Definition rstrip_chars (chars : str) (s : str) : str :=
  rstrip_by (char_in chars) s.

(** [re.sub] of a pattern that is one character class, by [r]. *)
Definition sub_class (cls : N -> bool) (r : str) (s : str) : str :=
  flat_map (fun c => if cls c then r else [c]) s.

(** The class of line 77: the angle brackets, the colon, the double quote,
    the slash, the backslash, the bar, the question mark and the star. *)
Definition forbidden_in_filename (c : N) : bool :=
  char_in [60; 62; 58; 34; 47; 92; 124; 63; 42] c.

Definition _sanitize_filename (value fallback : str) : str :=
  let cleaned := sub_class forbidden_in_filename (lit "_") value in
  let cleaned := replace_char 0 (lit "_") cleaned in
  let cleaned := strip cleaned in
  let cleaned := rstrip_chars (lit ". ") cleaned in
  let cleaned :=
    if Nat.ltb 120 (List.length cleaned)
    then rstrip_chars (lit ". ") (firstn 120 cleaned)
    else cleaned in
  if truthy cleaned then cleaned else fallback.

(** A character that a cleaned file name may hold. *)
Definition filename_char (c : N) : Prop :=
  forbidden_in_filename c = false /\ c <> 0.

(** The class of line 87: whitespace, comma, colon and hyphen. *)
Definition trailing_punctuation (c : N) : bool :=
  isspace c || char_in (lit ",:-") c.

(** What replaces a run of whitespace under the pattern of line 88: one
    space when the run has two characters or more, the run itself
    otherwise. *)
Definition flush_spaces (run : str) : str :=
  if Nat.leb 2 (List.length run) then lit " " else run.

(** [re.sub(r'\s{2,}', ' ', s)]: the pattern is greedy over one class, so
    every match is a maximal run of whitespace; [run] holds the run being
    read. *)
Fixpoint collapse_spaces (run : str) (s : str) : str :=
  match s with
  | [] => flush_spaces run
  | c :: s' =>
      if isspace c then collapse_spaces (run ++ [c]) s'
      else flush_spaces run ++ c :: collapse_spaces [] s'
  end.

Section CleanPartTitle.

(** [PART_DATE_PATTERN.sub('', raw)]: the work of the regular expression
    engine on the date pattern, with its Unicode case folding. *)
Variable date_pattern_sub : str -> str.

(** [_clean_part_title].  The pattern of line 87 ends with the
    end-of-string anchor and its class holds the newline, so its only match
    is the longest suffix of characters of the class. *)
Definition clean_part_title (raw : str) : str :=
  let cleaned := strip (date_pattern_sub raw) in
  let cleaned := strip (rstrip_by trailing_punctuation cleaned) in
  let cleaned := collapse_spaces [] cleaned in
  cleaned.

End CleanPartTitle.

(** Lines 413-415 of [main]: the name of the output file when no [--out]
    is given. *)
Definition default_output_name (story_title : str) (parts : list part) : str :=
  let fallback_name :=
    match parts with
    | p :: _ => lit "Wattpad Story " ++ part_id p
    | [] => lit "Wattpad Story"
    end in
  let base_name := _sanitize_filename story_title fallback_name in
  base_name ++ lit ".pdf".

(** ** The document

    [build_pdf] up to the markup it hands to [write_html]. *)

(** [sep.join(parts)] *)
Definition join_sep (sep : str) (parts : list str) : str :=
  match parts with
  | [] => []
  | p :: rest => p ++ flat_map (fun q => sep ++ q) rest
  end.

Definition centered_heading (tag_name title : str) : str :=
  lit "<" ++ tag_name ++ lit " align=" ++ dq ++ lit "center" ++ dq ++ lit ">"
  ++ html_escape true title ++ lit "</" ++ tag_name ++ lit ">".

(** Lines 382-391. *)
Definition html_parts (story_title : str) (chapters : list chapter) : list str :=
  fold_left
    (fun html_parts chapter =>
       let title := chapter_title chapter in
       let blocks := chapter_blocks chapter in
       let html_parts :=
         if truthy title
         then html_parts ++ [centered_heading (lit "h2") title]
         else html_parts in
       let html_parts :=
         fold_left (fun html_parts block_html => html_parts ++ [block_html])
           blocks html_parts in
       html_parts ++ [lit "<br/>"])
    chapters
    [centered_heading (lit "h1") story_title].

(** Line 393. *)
Definition html_body (story_title : str) (chapters : list chapter) : str :=
  join_sep [10] (html_parts story_title chapters).

(** The fragments of one chapter, in the words of the specification. *)
Definition chapter_fragments (c : chapter) : list str :=
  (if truthy (chapter_title c) then [centered_heading (lit "h2") (chapter_title c)]
   else [])
  ++ chapter_blocks c ++ [lit "<br/>"].

(** ** The run, in the words of a reader of the log *)

(** The request for the body of one part. *)
Definition part_request (p : part) : event :=
  Request storytext_url (Some (part_id p)).

(** The title [main] gives to the chapter of a part, before cleaning. *)
Definition raw_chapter_title (p : part) : str :=
  if truthy (part_title p) then part_title p else lit "Part " ++ part_id p.

(** What fetching the part with a given identifier comes to: its blocks,
    or the error it raises. *)
Definition fetch_outcome (lower : str -> str)
    (http_get : str -> option str -> option response)
    (parse_html : str -> list node) (id : str) : exn + list str :=
  snd (fetch_part_blocks lower http_get parse_html id []).

(** What a part has to do with the link it was made from. *)
Definition part_of_anchor (is_digit : N -> bool) (urljoin : str -> str -> str)
    (_clean_part_title : str -> str) (url : str) (anchor : str * str) (p : part)
  : Prop :=
  part_url p = urljoin url (fst anchor)
  /\ part_title p = _clean_part_title (snd anchor)
  /\ extract_story_id is_digit (part_url p) = inr (part_id p).

(** ** Escaping with quotes, in one pass *)

Definition escape_attr_cp (c : N) : str :=
  if c =? 38 then lit "&amp;"
  else if c =? 60 then lit "&lt;"
  else if c =? 62 then lit "&gt;"
  else if c =? 34 then lit "&quot;"
  else if c =? 39 then lit "&#x27;"
  else [c].

(** A character that cannot end an attribute value or open a tag. *)
Definition attr_safe (c : N) : Prop :=
  c <> 60 /\ c <> 62 /\ c <> 34 /\ c <> 39.

(** ** The inline vocabulary *)

Definition inline_tags : list str :=
  [lit "b"; lit "i"; lit "u"; lit "sup"; lit "sub"].

Definition allowed_wrapper (w : wrapper) : Prop :=
  match w with
  | WTag tag_name => In tag_name inline_tags
  | _ => True
  end.

(** Markup made of plain characters, the three entities, line breaks and
    dividers, and pairs of an opening and a closing tag (b, i, u, sup, sub,
    a with an escaped href, font with an escaped face or color) around
    such markup. *)
Inductive inline_markup : str -> Prop :=
| im_nil : inline_markup []
| im_plain c : c <> 38 -> c <> 60 -> c <> 62 -> inline_markup [c]
| im_entity e : In e entities -> inline_markup e
| im_br : inline_markup (lit "<br/>")
| im_hr : inline_markup (lit "<hr/>")
| im_app s1 s2 : inline_markup s1 -> inline_markup s2 -> inline_markup (s1 ++ s2)
| im_wrap w s : allowed_wrapper w -> inline_markup s -> inline_markup (wrap_with s w).

(** A block is one tag from its first to its last character. *)
Definition tag_shaped (block : str) : Prop :=
  hd 0 block = 60 /\ last block 0 = 62.

(** No two whitespace characters side by side. *)
Fixpoint no_double_space (s : str) : bool :=
  match s with
  | c :: s' =>
      negb (isspace c && isspace (hd 0 s')) && no_double_space s'
  | [] => true
  end.

(** ** Font registration

    [register_available_fonts] on the sorted list of the font files beside
    the script.  Of a file the function reads the stem of its name and its
    path; a call of [pdf.add_font] is logged with its family, style and
    file, and is taken not to raise. *)

Definition STYLE_SUFFIX_MAP : list (str * str) :=
  [ (lit "boldoblique", lit "BI"); (lit "bolditalic", lit "BI");
    (lit "bold", lit "B"); (lit "oblique", lit "I"); (lit "italic", lit "I");
    (lit "regular", []); (lit "book", []) ].

Record font_file := mk_font { font_stem : str; font_path : str }.

Definition add_font_call : Type := (str * str * str)%type.

Definition key_eqb (k1 k2 : str * str) : bool :=
  str_eqb (fst k1) (fst k2) && str_eqb (snd k1) (snd k2).

(** [x in s] and [s.add(x)] for a set of strings. *)
Definition set_add (x : str) (s : list str) : list str :=
  if str_in x s then s else s ++ [x].

(** [d.setdefault(family, set()).add(style)] *)
Fixpoint registered_add (family style : str) (d : list (str * list str))
  : list (str * list str) :=
  match d with
  | [] => [(family, [style])]
  | (f, styles) :: rest =>
      if str_eqb family f then (f, set_add style styles) :: rest
      else (f, styles) :: registered_add family style rest
  end.

(** [d.setdefault(k, v)] *)
Fixpoint dict_setdefault (d : list (str * str)) (k v : str) : list (str * str) :=
  match d with
  | [] => [(k, v)]
  | (k', v') :: rest =>
      if str_eqb k k' then d else (k', v') :: dict_setdefault rest k v
  end.

Record font_state := mk_font_state {
  registered : list (str * list str);
  seen : list (str * str);
  regular_files : list (str * str);
  add_font_calls : list add_font_call
}.

Section Fonts.

Variable lower : str -> str.

(** The loop over [STYLE_SUFFIX_MAP], left at the first keyword that ends
    the lowered suffix. *)
Fixpoint suffix_style (lowered_suffix : str) (m : list (str * str)) : option str :=
  match m with
  | [] => None
  | (keyword, mapped_style) :: rest =>
      if endswith lowered_suffix keyword then Some mapped_style
      else suffix_style lowered_suffix rest
  end.

(** Lines 99-112: the family and the style of a file, from its stem. *)
Definition font_key (stem : str) : str * str :=
  if contains (lit "-") stem then
    let '(base_candidate, suffix) := partition 45 stem in
    match suffix_style (lower suffix) STYLE_SUFFIX_MAP with
    | Some mapped_style => (base_candidate, mapped_style)
    | None => (stem, [])
    end
  else (stem, []).

(** Lines 112-120: one turn of the first loop. *)
Definition register_font (st : font_state) (f : font_file) : font_state :=
  let key := font_key (font_stem f) in
  let base := fst key in
  let style := snd key in
  if existsb (key_eqb key) (seen st) then st
  else
    mk_font_state
      (registered_add base style (registered st))
      (seen st ++ [key])
      (if str_in style [[]; lit "regular"]
       then dict_setdefault (regular_files st) base (font_path f)
       else regular_files st)
      (add_font_calls st ++ [(base, style, font_path f)]).

(** Lines 129-132: the styles a family lacks are registered with its
    regular file. *)
Definition complete_family (family regular_path : str)
    (acc : list str * list add_font_call) : list str * list add_font_call :=
  fold_left
    (fun acc fallback_style =>
       let '(styles, calls) := acc in
       if negb (str_in fallback_style styles)
       then (set_add fallback_style styles,
             calls ++ [(family, fallback_style, regular_path)])
       else (styles, calls))
    [lit "B"; lit "I"; lit "BI"] acc.

(** Lines 125-132: the second loop, over the families in the order of
    their registration. *)
Fixpoint complete_families (regular : list (str * str))
    (d : list (str * list str)) (calls : list add_font_call)
  : list (str * list str) * list add_font_call :=
  match d with
  | [] => ([], calls)
  | (family, styles) :: rest =>
      let '(styles', calls') :=
        match dict_get regular family with
        | None => (styles, calls)
        | Some regular_path => complete_family family regular_path (styles, calls)
        end in
      let '(rest', calls'') := complete_families regular rest calls' in
      ((family, styles') :: rest', calls'')
  end.

(** The families with their styles, or [None] for the
    [FileNotFoundError], and the calls of [add_font] in their order. *)
Definition register_available_fonts (fonts : list font_file)
  : option (list (str * list str)) * list add_font_call :=
  let st := fold_left register_font fonts (mk_font_state [] [] [] []) in
  match registered st with
  | [] => (None, add_font_calls st)
  | _ :: _ =>
      let '(d, calls) :=
        complete_families (regular_files st) (registered st) (add_font_calls st) in
      (Some d, calls)
  end.

End Fonts.

(** The styles of a family in the dict of registered fonts. *)
Fixpoint styles_of (family : str) (d : list (str * list str)) : list str :=
  match d with
  | [] => []
  | (f, styles) :: rest =>
      if str_eqb family f then styles else styles_of family rest
  end.

Definition font_styles : list str := [[]; lit "B"; lit "I"; lit "BI"].

Definition call_key (c : add_font_call) : str * str := (fst (fst c), snd (fst c)).

(** What the first loop keeps true of its state. *)
Definition fonts_invariant (st : font_state) : Prop :=
  NoDup (map fst (registered st))
  /\ (forall f s, In s (styles_of f (registered st)) <-> In (f, s) (seen st))
  /\ (forall f, In (f, []) (seen st) -> dict_get (regular_files st) f <> None)
  /\ map call_key (add_font_calls st) = seen st
  /\ NoDup (seen st)
  /\ (forall f s, In (f, s) (seen st) -> In s font_styles)
  /\ (forall f, In f (map fst (registered st)) <-> exists s, In (f, s) (seen st)).

(** The styles of a family once the second loop has dealt with it. *)
Definition completed_styles (styles : list str) : list str :=
  set_add (lit "BI") (set_add (lit "I") (set_add (lit "B") styles)).

(** The fallback styles a set of styles lacks. *)
Definition missing_styles (styles : list str) : list str :=
  filter (fun fallback_style => negb (str_in fallback_style styles))
    [lit "B"; lit "I"; lit "BI"].

(** The calls of the second loop for one family. *)
Definition fallback_calls (regular : list (str * str)) (entry : str * list str)
  : list add_font_call :=
  match dict_get regular (fst entry) with
  | Some regular_path =>
      map (fun fallback_style => (fst entry, fallback_style, regular_path))
        (missing_styles (snd entry))
  | None => []
  end.

(** ** Strings: basic facts *)

Lemma str_eqb_eq (a b : str) : str_eqb a b = true <-> a = b.
Proof.
  revert b; induction a as [|x a IH]; intros [|y b]; simpl; split;
    try congruence; try reflexivity.
  - rewrite andb_true_iff, N.eqb_eq, IH. intros [-> ->]; reflexivity.
  - intros E; injection E as -> ->. rewrite N.eqb_refl.
    apply IH; reflexivity.
Qed.

Lemma str_eqb_refl (a : str) : str_eqb a a = true.
Proof. apply str_eqb_eq; reflexivity. Qed.

Lemma str_eqb_neq (a b : str) : str_eqb a b = false <-> a <> b.
Proof.
  rewrite <- str_eqb_eq. destruct (str_eqb a b); split; congruence.
Qed.

Lemma truthy_false (s : str) : truthy s = false <-> s = [].
Proof. destruct s; simpl; split; congruence. Qed.

Lemma truthy_true (s : str) : truthy s = true <-> s <> [].
Proof. destruct s; simpl; split; congruence. Qed.

Lemma replace_char_app c r (s1 s2 : str) :
  replace_char c r (s1 ++ s2) = replace_char c r s1 ++ replace_char c r s2.
Proof. unfold replace_char. apply flat_map_app. Qed.

Lemma replace_char_cons c r x (s : str) :
  replace_char c r (x :: s) = (if x =? c then r else [x]) ++ replace_char c r s.
Proof. reflexivity. Qed.

Lemma replace_nbsp_map (text : str) :
  replace_char 160 (lit " ") text = normalize_nbsp text.
Proof.
  induction text as [|c text IH]; [reflexivity|].
  rewrite replace_char_cons, IH. simpl.
  destruct (c =? 160); reflexivity.
Qed.

(** The three successive replacements of [html.escape] amount to one pass
    that maps each code point to its entity. *)
Lemma html_escape_one_pass (s : str) :
  html_escape false s = flat_map escape_cp s.
Proof.
  unfold html_escape.
  induction s as [|c s IH]; [reflexivity|].
  rewrite replace_char_cons, !replace_char_app, IH.
  simpl flat_map. f_equal.
  unfold escape_cp.
  destruct (N.eqb_spec c 38) as [->|H38]; [reflexivity|].
  unfold replace_char; simpl.
  destruct (N.eqb_spec c 60) as [->|H60]; [reflexivity|].
  simpl.
  destruct (N.eqb_spec c 62) as [->|H62]; reflexivity.
Qed.

(** ** The fallback-font pass *)

Lemma yi_sub_run (r : str) : forall run text,
  forallb is_yi r = true -> yi_sub run (r ++ text) = yi_sub (run ++ r) text.
Proof.
  induction r as [|c r IH]; intros run text H; simpl in *.
  - now rewrite app_nil_r.
  - apply andb_true_iff in H as [Hc Hr]. rewrite Hc, IH by assumption.
    now rewrite <- app_assoc.
Qed.

Lemma yi_sub_stop (run text : str) :
  is_yi (hd 0 text) = false -> yi_sub run text = flush run ++ yi_sub [] text.
Proof.
  destruct text as [|c text]; simpl; intros H.
  - now rewrite app_nil_r.
  - now rewrite H.
Qed.

Lemma yi_sub_snoc (a : str) : forall c run rest,
  is_yi c = false ->
  yi_sub run ((a ++ [c]) ++ rest) = yi_sub run (a ++ [c]) ++ yi_sub [] rest.
Proof.
  induction a as [|d a IH]; intros c run rest Hc; simpl.
  - rewrite Hc. simpl. now rewrite <- app_assoc.
  - destruct (is_yi d).
    + now apply IH.
    + rewrite IH by assumption. now rewrite <- app_assoc.
Qed.

Lemma yi_sub_split (a rest : str) :
  is_yi (last a 0) = false ->
  _wrap_yi_sequences (a ++ rest) = _wrap_yi_sequences a ++ _wrap_yi_sequences rest.
Proof.
  unfold _wrap_yi_sequences.
  induction a as [|c a _] using rev_ind; intros H; [reflexivity|].
  rewrite last_last in H. now apply yi_sub_snoc.
Qed.

(** Text without any character of the block is left as it is. *)
Lemma wrap_yi_none (s : str) :
  forallb (fun c => negb (is_yi c)) s = true -> _wrap_yi_sequences s = s.
Proof.
  unfold _wrap_yi_sequences.
  induction s as [|c s IH]; simpl; intros H; [reflexivity|].
  apply andb_true_iff in H as [Hc Hs]. apply negb_true_iff in Hc.
  rewrite Hc, IH by assumption. reflexivity.
Qed.

(** A maximal run is wrapped as a whole, and the text on either side is
    treated on its own. *)
Lemma wrap_yi_run (a r b : str) :
  r <> [] ->
  forallb is_yi r = true ->
  is_yi (last a 0) = false ->
  is_yi (hd 0 b) = false ->
  _wrap_yi_sequences (a ++ r ++ b)
  = _wrap_yi_sequences a ++ yi_open ++ r ++ yi_close ++ _wrap_yi_sequences b.
Proof.
  intros Hr Hyi Ha Hb.
  rewrite yi_sub_split by assumption. f_equal.
  unfold _wrap_yi_sequences.
  rewrite yi_sub_run by assumption. simpl app.
  rewrite yi_sub_stop by assumption.
  destruct r as [|c r]; [congruence|].
  unfold flush, repl. now rewrite <- !app_assoc.
Qed.

(** ** Escaped markup *)

Lemma escaped_markup_app (s1 s2 : str) :
  escaped_markup s1 -> escaped_markup s2 -> escaped_markup (s1 ++ s2).
Proof.
  induction 1; intros Hs2; simpl; rewrite <- ?app_assoc;
    try (constructor; auto; fail); auto.
Qed.

Lemma is_yi_plain (c : N) : is_yi c = true -> c <> 38 /\ c <> 60 /\ c <> 62.
Proof.
  unfold is_yi. rewrite andb_true_iff, !N.leb_le. lia.
Qed.

Lemma escaped_markup_yi (r : str) :
  forallb is_yi r = true -> escaped_markup r.
Proof.
  induction r as [|c r IH]; simpl; intros H; [constructor|].
  apply andb_true_iff in H as [Hc Hr].
  destruct (is_yi_plain _ Hc) as (? & ? & ?).
  constructor; auto.
Qed.

Lemma escaped_markup_flush (run : str) :
  forallb is_yi run = true -> escaped_markup (flush run).
Proof.
  intros H. destruct run as [|c run]; [constructor|].
  unfold flush, repl. apply em_open.
  apply escaped_markup_app; [now apply escaped_markup_yi|].
  rewrite <- (app_nil_r yi_close). apply em_close. constructor.
Qed.

Lemma escaped_markup_yi_sub (t : str) : forall run,
  forallb is_yi run = true ->
  escaped_markup (yi_sub run (flat_map escape_cp t)).
Proof.
  induction t as [|c t IH]; intros run Hrun.
  - simpl. now apply escaped_markup_flush.
  - simpl flat_map. unfold escape_cp at 1.
    destruct (N.eqb_spec c 38) as [->|H38];
      [|destruct (N.eqb_spec c 60) as [->|H60];
        [|destruct (N.eqb_spec c 62) as [->|H62]]].
    + apply (escaped_markup_app (flush run)
               (lit "&amp;" ++ yi_sub [] (flat_map escape_cp t))).
      * now apply escaped_markup_flush.
      * apply em_entity; [simpl; auto|]. now apply IH.
    + apply (escaped_markup_app (flush run)
               (lit "&lt;" ++ yi_sub [] (flat_map escape_cp t))).
      * now apply escaped_markup_flush.
      * apply em_entity; [simpl; auto|]. now apply IH.
    + apply (escaped_markup_app (flush run)
               (lit "&gt;" ++ yi_sub [] (flat_map escape_cp t))).
      * now apply escaped_markup_flush.
      * apply em_entity; [simpl; auto|]. now apply IH.
    + simpl. destruct (is_yi c) eqn:Hc.
      * apply IH. rewrite forallb_app, Hrun. simpl. now rewrite Hc.
      * apply escaped_markup_app; [now apply escaped_markup_flush|].
        constructor; auto.
Qed.

(** ** The inline renderer on a text leaf *)

Lemma render_text_pipeline lower (t : str) :
  _render_node lower (Text t)
  = _wrap_yi_sequences (flat_map escape_cp (normalize_nbsp t)).
Proof.
  destruct t as [|c t]; [reflexivity|].
  change (_render_node lower (Text (c :: t)))
    with (_wrap_yi_sequences
            (html_escape false (replace_char 160 (lit " ") (c :: t)))).
  now rewrite replace_nbsp_map, html_escape_one_pass.
Qed.

Lemma is_yi_range (c : N) : is_yi c = true <-> 40960 <= c /\ c <= 42127.
Proof.
  unfold is_yi. now rewrite andb_true_iff, !N.leb_le.
Qed.

(** C1. A text leaf is rendered by turning U+00A0 into a plain space,
    then replacing each ampersand and angle bracket (and no other
    character, so no quote) by its entity, then wrapping every maximal run
    of code points of U+A000..U+A48F (40960 to 42127) in the font tag that
    names the typeface NotoSansYi: text without such code points is
    unchanged by the last step, and a run bounded on both sides is wrapped
    as a whole, between the opening tag with face NotoSansYi and the
    closing font tag.  The first and the last code point of the block are
    wrapped and their neighbours U+9FFF and U+A490 are not.  The text
    "A & B" inside a b element gives <b>A &amp; B</b>, and in the rendering
    of a text leaf every ampersand and angle bracket belongs to an entity
    or to one of the two font tags. *)
Theorem C1_text_leaf_rendering :
  (forall lower t,
      _render_node lower (Text t)
      = _wrap_yi_sequences (flat_map escape_cp (normalize_nbsp t)))
  /\ (forall c, c <> 38 -> c <> 60 -> c <> 62 -> escape_cp c = [c])
  /\ (forall s,
        forallb (fun c => negb (is_yi c)) s = true -> _wrap_yi_sequences s = s)
  /\ (forall a r b,
        r <> [] -> forallb is_yi r = true ->
        is_yi (last a 0) = false -> is_yi (hd 0 b) = false ->
        _wrap_yi_sequences (a ++ r ++ b)
        = _wrap_yi_sequences a ++ yi_open ++ r ++ yi_close ++ _wrap_yi_sequences b)
  /\ render_inline (elem "b" no_attrs [txt "A & B"]) = lit "<b>A &amp; B</b>"
  /\ (forall lower t, escaped_markup (_render_node lower (Text t)))
  /\ (forall c, is_yi c = true <-> 40960 <= c /\ c <= 42127)
  /\ yi_open = lit "<font face=" ++ dq ++ lit "NotoSansYi" ++ dq ++ lit ">"
  /\ yi_close = lit "</font>"
  /\ (forall a r b,
        r <> [] ->
        Forall (fun c => 40960 <= c /\ c <= 42127) r ->
        ~ (40960 <= last a 0 /\ last a 0 <= 42127) ->
        ~ (40960 <= hd 0 b /\ hd 0 b <= 42127) ->
        _wrap_yi_sequences (a ++ r ++ b)
        = _wrap_yi_sequences a
          ++ lit "<font face=" ++ dq ++ lit "NotoSansYi" ++ dq ++ lit ">"
          ++ r ++ lit "</font>" ++ _wrap_yi_sequences b)
  /\ (forall lower,
        _render_node lower (Text [65; 40959; 40960; 42127; 42128; 160; 60])
        = lit "A" ++ [40959]
          ++ lit "<font face=" ++ dq ++ lit "NotoSansYi" ++ dq ++ lit ">"
          ++ [40960; 42127] ++ lit "</font>" ++ [42128] ++ lit " &lt;").
Proof.
  split; [apply render_text_pipeline|].
  split.
  { intros c H38 H60 H62. unfold escape_cp.
    apply N.eqb_neq in H38, H60, H62. now rewrite H38, H60, H62. }
  split; [apply wrap_yi_none|].
  split; [apply wrap_yi_run|].
  split; [reflexivity|].
  split.
  { intros lower t. rewrite render_text_pipeline.
    now apply escaped_markup_yi_sub. }
  split; [exact is_yi_range|].
  split; [reflexivity|].
  split; [reflexivity|].
  split; [|intros lower; reflexivity].
  intros a r b Hr Hyi Ha Hb.
  assert (Hoff : forall c, ~ (40960 <= c /\ c <= 42127) -> is_yi c = false).
  { intros c Hc. destruct (is_yi c) eqn:E; [|reflexivity].
    apply is_yi_range in E. contradiction. }
  rewrite (wrap_yi_run a r b Hr); auto.
  apply forallb_forall. rewrite Forall_forall in Hyi.
  intros c Hc. now apply is_yi_range, Hyi.
Qed.

Lemma C1_text_leaf_rendering_witness :
  _wrap_yi_sequences ([65; 160] ++ [40960; 40961] ++ [38; 66])
  = _wrap_yi_sequences [65; 160]
    ++ lit "<font face=" ++ dq ++ lit "NotoSansYi" ++ dq ++ lit ">"
    ++ [40960; 40961] ++ lit "</font>" ++ _wrap_yi_sequences [38; 66].
Proof.
  apply (proj1 (proj2 (proj2 (proj2 (proj2 (proj2 (proj2 (proj2 (proj2 (proj2
           C1_text_leaf_rendering)))))))))).
  - discriminate.
  - repeat constructor; lia.
  - simpl. lia.
  - simpl. lia.
Defined.

(** ** Trees *)

Lemma node_forall_ind (P : node -> Prop) :
  (forall t, P (Text t)) ->
  P Other ->
  (forall nm a ch, Forall P ch -> P (Element nm a ch)) ->
  forall n, P n.
Proof.
  intros HT HO HE. fix IH 1. intros [t|nm a ch|]; [apply HT| |apply HO].
  apply HE. induction ch as [|c ch IHch]; constructor; [apply IH|apply IHch].
Qed.

Lemma fold_left_extend {A B : Type} (f : A -> list B) (l : list A) : forall acc,
  fold_left (fun blocks child => blocks ++ f child) l acc = acc ++ flat_map f l.
Proof.
  induction l as [|x l IH]; intros acc; simpl.
  - now rewrite app_nil_r.
  - now rewrite IH, <- app_assoc.
Qed.

(** ** The alignment resolver *)

Lemma dict_get_align_value (value letter : str) :
  dict_get ALIGN_VALUE_MAP value = Some letter -> In letter alignments.
Proof.
  unfold ALIGN_VALUE_MAP, alignments. simpl.
  repeat match goal with
         | |- context [if ?b then _ else _] => destruct b
         end; intros E; inversion E; subst; simpl; auto.
Qed.

Lemma style_alignment_first (segments : list str) :
  style_alignment segments = first_some declared_alignment segments.
Proof.
  induction segments as [|seg rest IH]; [reflexivity|].
  cbn [style_alignment first_some]. unfold declared_alignment.
  destruct (startswith (strip seg) (lit "text-align")); [|exact IH].
  destruct (dict_get ALIGN_VALUE_MAP _); [reflexivity|exact IH].
Qed.

Lemma class_alignment_first (classes : list str) :
  class_alignment classes = first_some class_token_alignment classes.
Proof.
  induction classes as [|cls rest IH]; [reflexivity|].
  cbn [class_alignment first_some]. unfold class_token_alignment.
  destruct (contains (lit "center") cls); [reflexivity|].
  destruct (contains (lit "right") cls); [reflexivity|].
  destruct (contains (lit "justify") cls); [reflexivity|exact IH].
Qed.

Lemma first_some_skip {A B : Type} (f : A -> option B) (pre : list A) x post :
  (forall y, In y pre -> f y = None) ->
  first_some f (pre ++ x :: post)
  = match f x with Some v => Some v | None => first_some f post end.
Proof.
  induction pre as [|y pre IH]; intros H; [reflexivity|].
  simpl. rewrite (H y) by (left; reflexivity).
  apply IH. intros z Hz. apply H. now right.
Qed.

Lemma first_some_in {A B : Type} (f : A -> option B) (l : list A) v :
  first_some f l = Some v -> exists x, In x l /\ f x = Some v.
Proof.
  induction l as [|x l IH]; simpl; [discriminate|].
  destruct (f x) eqn:E.
  - intros H; inversion H; subst. exists x; auto.
  - intros H. destruct (IH H) as (y & Hy & Hf). exists y; auto.
Qed.

Lemma style_alignment_range (segments : list str) v :
  style_alignment segments = Some v -> In v alignments.
Proof.
  rewrite style_alignment_first. intros H.
  apply first_some_in in H as (seg & _ & H).
  unfold declared_alignment in H.
  destruct (startswith _ _); [|discriminate].
  now apply dict_get_align_value in H.
Qed.

Lemma class_alignment_range (classes : list str) v :
  class_alignment classes = Some v -> In v alignments.
Proof.
  rewrite class_alignment_first. intros H.
  apply first_some_in in H as (cls & _ & H).
  unfold class_token_alignment in H.
  repeat match type of H with
         | context [if ?b then _ else _] => destruct b
         end; inversion H; subst; unfold alignments; simpl; auto.
Qed.

Lemma extract_alignment_range lower (a : attrs) :
  In (_extract_alignment lower a) alignments.
Proof.
  unfold _extract_alignment.
  destruct (style_alignment _) eqn:Es; [now apply style_alignment_range in Es|].
  destruct (dict_get _ _) eqn:Ea; [now apply dict_get_align_value in Ea|].
  destruct (class_alignment _) eqn:Ec; [now apply class_alignment_range in Ec|].
  unfold alignments; simpl; auto.
Qed.

Lemma resolve_alignment_own lower (a : attrs) inh :
  _extract_alignment lower a <> lit "L" ->
  resolve_alignment lower a inh = _extract_alignment lower a.
Proof.
  intros H. unfold resolve_alignment.
  apply str_eqb_neq in H. now rewrite H.
Qed.

Lemma resolve_alignment_inherited lower (a : attrs) inh :
  _extract_alignment lower a = lit "L" ->
  resolve_alignment lower a inh = inh.
Proof.
  intros H. unfold resolve_alignment. now rewrite H.
Qed.

Lemma resolve_alignment_range lower (a : attrs) inh :
  In inh alignments -> In (resolve_alignment lower a inh) alignments.
Proof.
  intros H. unfold resolve_alignment.
  destruct (str_eqb _ _); [assumption|apply extract_alignment_range].
Qed.

(** C6. The resolver decides in three stages: the first segment of the
    lowered style attribute that is a text-align declaration with a
    recognised value, else the lowered align attribute if recognised, else
    the first lowered class token that contains center, right or justify
    (center before right before justify inside one token), else left.  A
    decision other than left is returned; a decision of left, from any
    stage, gives the inherited value.  The node's own value is always one
    of the four alignment values, and so is the resolved one when the
    inherited value is. *)
Theorem C6_alignment_resolver lower (a : attrs) (inherited : str) :
  let by_style :=
    first_some declared_alignment (split 59 (lower (or_empty (at_style a)))) in
  let by_attr := dict_get ALIGN_VALUE_MAP (lower (or_empty (at_align a))) in
  let by_class :=
    first_some class_token_alignment (map lower (or_nil (at_class a))) in
  let own :=
    match by_style, by_attr, by_class with
    | Some v, _, _ => v
    | None, Some v, _ => v
    | None, None, Some v => v
    | None, None, None => lit "L"
    end in
  _extract_alignment lower a = own
  /\ resolve_alignment lower a inherited
     = (if str_eqb own (lit "L") then inherited else own)
  /\ In own alignments
  /\ (In inherited alignments ->
      In (resolve_alignment lower a inherited) alignments).
Proof.
  intros by_style by_attr by_class own.
  assert (E : _extract_alignment lower a = own).
  { unfold _extract_alignment, own, by_style, by_attr, by_class.
    rewrite style_alignment_first, class_alignment_first.
    destruct (first_some declared_alignment _); [reflexivity|].
    destruct (dict_get _ _); [reflexivity|].
    destruct (first_some class_token_alignment _); reflexivity. }
  split; [exact E|].
  split; [unfold resolve_alignment; now rewrite E|].
  split; [rewrite <- E; apply extract_alignment_range|].
  apply resolve_alignment_range.
Qed.

Lemma C6_alignment_resolver_witness :
  In (resolve_alignment ascii_lower (with_class ["Align-Right"%string]) (lit "C"))
     alignments.
Proof.
  apply (C6_alignment_resolver ascii_lower (with_class ["Align-Right"%string]) (lit "C")).
  unfold alignments. simpl. auto.
Defined.

(** The claim as worded fails on an explicit left: a recognised style
    declaration is not returned when its value is left and the inherited
    alignment is another one. *)
Lemma C6_counterexample :
  ~ (forall (a : attrs) (inherited v : str),
        first_some declared_alignment
          (split 59 (ascii_lower (or_empty (at_style a)))) = Some v ->
        resolve_alignment ascii_lower a inherited = v).
Proof.
  intros H.
  specialize (H (with_style "text-align:left") (lit "C") (lit "L") eq_refl).
  vm_compute in H. discriminate H.
Qed.

(** ** The block renderer: elements *)

Lemma truthy_align_attr (node_align : str) :
  truthy (align_attr_of node_align) = negb (str_eqb node_align (lit "L")).
Proof.
  unfold align_attr_of. destruct (str_eqb node_align (lit "L")); reflexivity.
Qed.

Lemma align_attr_left : align_attr_of (lit "L") = [].
Proof. reflexivity. Qed.

Lemma div_wrap_eq (node_align block : str) :
  str_eqb node_align (lit "L") = false ->
  lit "<div" ++ align_attr_of node_align ++ lit ">" ++ block ++ lit "</div>"
  = div_wrap node_align block.
Proof.
  intros H. unfold align_attr_of, div_wrap. rewrite H. simpl negb. cbv iota.
  rewrite <- !app_assoc. reflexivity.
Qed.

Lemma render_blocks_element lower nm a ch inh :
  _render_blocks_from_node lower (Element nm a ch) inh
  = let node_align := resolve_alignment lower a inh in
    let child_blocks :=
      flat_map (fun c => _render_blocks_from_node lower c node_align) ch in
    if str_eqb (lower nm) (lit "div") && nonempty child_blocks then
      if str_eqb node_align (lit "L") then child_blocks
      else map (div_wrap node_align) child_blocks
    else element_blocks lower (lower nm) ch (align_attr_of node_align).
Proof.
  cbn [_render_blocks_from_node]. rewrite fold_left_extend. cbn [app].
  cbv zeta. rewrite truthy_align_attr.
  destruct (str_eqb (lower nm) (lit "div")); [|reflexivity].
  cbn [andb]. destruct (nonempty _); [|reflexivity].
  destruct (str_eqb (resolve_alignment lower a inh) (lit "L")) eqn:E;
    cbn [negb]; [reflexivity|].
  apply map_ext. intros b. now apply div_wrap_eq.
Qed.

Lemma nonempty_true {A : Type} (l : list A) : l <> [] -> nonempty l = true.
Proof. destruct l; [congruence|reflexivity]. Qed.

(** C4. A div resolves its alignment, falling back to the inherited one,
    and renders each child under the resolved alignment; when that gives
    child blocks, each of them is put in a div carrying the alignment if
    and only if the resolved alignment is not left, and they pass through
    unwrapped when it is left. *)
Theorem C4_div_container lower nm (a : attrs) (ch : list node) (inherited : str) :
  lower nm = lit "div" ->
  let node_align := resolve_alignment lower a inherited in
  let child_blocks :=
    flat_map (fun c => _render_blocks_from_node lower c node_align) ch in
  child_blocks <> [] ->
  (node_align = lit "L" ->
   _render_blocks_from_node lower (Element nm a ch) inherited = child_blocks)
  /\ (node_align <> lit "L" ->
      _render_blocks_from_node lower (Element nm a ch) inherited
      = map (div_wrap node_align) child_blocks).
Proof.
  intros Hdiv node_align child_blocks Hne.
  rewrite render_blocks_element. cbv zeta.
  fold node_align. fold child_blocks.
  rewrite Hdiv, (nonempty_true _ Hne). cbn [str_eqb andb].
  change (str_eqb (lit "div") (lit "div")) with true. cbn [andb].
  split; intros H.
  - rewrite H. reflexivity.
  - apply str_eqb_neq in H. now rewrite H.
Qed.

Lemma C4_div_container_witness :
  render_blocks (elem "div" (with_style "text-align: right") [elem "p" no_attrs [txt "x"]])
    (lit "C")
  = map (div_wrap (lit "R"))
      (render_blocks (elem "p" no_attrs [txt "x"]) (lit "R")).
Proof.
  refine (proj2 (C4_div_container ascii_lower (lit "div")
                   (with_style "text-align: right")
                   [elem "p" no_attrs [txt "x"]] (lit "C") eq_refl _) _).
  - vm_compute. discriminate.
  - vm_compute. discriminate.
Defined.

(** The claim as worded fails under a non-left inherited alignment: a div
    without alignment of its own resolves to the inherited value, and its
    child blocks are wrapped all the same. *)
Lemma C4_counterexample :
  ~ (forall nm (a : attrs) (ch : list node) (inherited : str),
        ascii_lower nm = lit "div" ->
        let node_align := resolve_alignment ascii_lower a inherited in
        let child_blocks :=
          flat_map (fun c => _render_blocks_from_node ascii_lower c node_align) ch in
        child_blocks <> [] ->
        node_align = inherited ->
        _render_blocks_from_node ascii_lower (Element nm a ch) inherited
        = child_blocks).
Proof.
  intros H.
  specialize (H (lit "div") no_attrs [elem "p" no_attrs [txt "x"]] (lit "C") eq_refl).
  cbv zeta in H.
  assert (Hne : flat_map
                  (fun c => _render_blocks_from_node ascii_lower c
                              (resolve_alignment ascii_lower no_attrs (lit "C")))
                  [elem "p" no_attrs [txt "x"]] <> []).
  { vm_compute. discriminate. }
  specialize (H Hne eq_refl).
  vm_compute in H. discriminate H.
Qed.

Lemma resolve_chain_inherited lower (chain : list attrs) : forall inh,
  Forall (fun a => _extract_alignment lower a = lit "L") chain ->
  fold_left (fun acc a => resolve_alignment lower a acc) chain inh = inh.
Proof.
  induction chain as [|a chain IH]; intros inh H; [reflexivity|].
  inversion H as [|? ? Ha Hchain]; subst. simpl.
  rewrite resolve_alignment_inherited by assumption. now apply IH.
Qed.

(** C5. A node's own alignment is used only when it is not left; when it
    is left the node keeps the inherited value.  So along a chain of nested
    nodes without alignment information the inherited value is handed down
    unchanged, an element without alignment information is rendered under
    the alignment it inherits, and two paragraphs without alignment inside
    a div with text-align:center are both centered, also through a further
    div without alignment. *)
Theorem C5_alignment_inheritance :
  (forall lower (a : attrs) inh,
      _extract_alignment lower a <> lit "L" ->
      resolve_alignment lower a inh = _extract_alignment lower a)
  /\ (forall lower (a : attrs) inh,
        _extract_alignment lower a = lit "L" ->
        resolve_alignment lower a inh = inh)
  /\ (forall lower (chain : list attrs) inh,
        Forall (fun a => _extract_alignment lower a = lit "L") chain ->
        fold_left (fun acc a => resolve_alignment lower a acc) chain inh = inh)
  /\ (forall lower nm (a : attrs) ch inh,
        _extract_alignment lower a = lit "L" ->
        _render_blocks_from_node lower (Element nm a ch) inh
        = let child_blocks :=
            flat_map (fun c => _render_blocks_from_node lower c inh) ch in
          if str_eqb (lower nm) (lit "div") && nonempty child_blocks then
            if str_eqb inh (lit "L") then child_blocks
            else map (div_wrap inh) child_blocks
          else element_blocks lower (lower nm) ch (align_attr_of inh))
  /\ render_blocks
       (elem "div" (with_style "text-align:center")
          [elem "p" no_attrs [txt "one"]; elem "p" no_attrs [txt "two"]])
       (lit "L")
     = [div_wrap (lit "C") (lit "<p align=" ++ dq ++ lit "center" ++ dq ++ lit ">one</p>");
        div_wrap (lit "C") (lit "<p align=" ++ dq ++ lit "center" ++ dq ++ lit ">two</p>")]
  /\ render_blocks
       (elem "div" (with_style "text-align:center")
          [elem "div" no_attrs [elem "p" no_attrs [txt "one"]]])
       (lit "L")
     = [div_wrap (lit "C")
          (div_wrap (lit "C")
             (lit "<p align=" ++ dq ++ lit "center" ++ dq ++ lit ">one</p>"))].
Proof.
  split; [exact resolve_alignment_own|].
  split; [exact resolve_alignment_inherited|].
  split; [exact resolve_chain_inherited|].
  split.
  { intros lower nm a ch inh H. rewrite render_blocks_element.
    now rewrite resolve_alignment_inherited by assumption. }
  split; vm_compute; reflexivity.
Qed.

Lemma C5_alignment_inheritance_witness :
  resolve_alignment ascii_lower (with_class ["story-text"%string]) (lit "C") = lit "C"
  /\ resolve_alignment ascii_lower (with_style "text-align:right") (lit "C") = lit "R".
Proof.
  split.
  - apply (proj1 (proj2 C5_alignment_inheritance)). reflexivity.
  - apply (proj1 C5_alignment_inheritance). vm_compute. discriminate.
Defined.

(** ** The inline renderer: wrappers *)

Lemma fold_when (c : bool) (w : wrapper) (inner : str) :
  fold_left wrap_with (when c w) inner = if c then wrap_with inner w else inner.
Proof. destruct c; reflexivity. Qed.

Lemma font_face_final (name : str) (a : attrs) :
  or_empty
    (if negb (truthy (or_empty (py_or (at_face a) (at_data_font a))))
        && str_eqb name (lit "span")
     then if truthy (or_empty (at_data_font a))
          then at_data_font a
          else py_or (at_face a) (at_data_font a)
     else py_or (at_face a) (at_data_font a))
  = face_of a.
Proof.
  unfold py_or, face_of.
  destruct (at_face a) as [[|c f]|]; destruct (at_data_font a) as [[|d g]|];
    destruct (str_eqb name (lit "span")); reflexivity.
Qed.

(** The wrapping steps of the renderer apply the list of wrappers from the
    innermost to the outermost. *)
Lemma wrap_element_wrappers lower (name : str) (a : attrs) (inner : str) :
  wrap_element lower name a inner
  = fold_left wrap_with (wrappers lower name a) inner.
Proof.
  unfold wrappers. rewrite !fold_left_app, !fold_when.
  unfold wrap_element. cbv zeta.
  rewrite (font_face_final name a).
  reflexivity.
Qed.

Lemma render_element_wrappers lower nm (a : attrs) (ch : list node) :
  str_in (lower nm) [lit "br"; lit "hr"] = false ->
  join (map (_render_node lower) ch) <> [] ->
  _render_node lower (Element nm a ch)
  = fold_left wrap_with (wrappers lower (lower nm) a)
      (join (map (_render_node lower) ch)).
Proof.
  intros Hname Hinner.
  cbn [_render_node].
  unfold str_in in Hname. cbn [existsb] in Hname.
  rewrite !orb_false_iff in Hname. destruct Hname as (Hbr & Hhr & _).
  rewrite Hbr, Hhr.
  apply truthy_true in Hinner. rewrite Hinner. cbn [negb andb].
  apply wrap_element_wrappers.
Qed.

Lemma sup_sub_name (name : str) :
  str_in name [lit "sup"; lit "sub"] = true ->
  str_in name [lit "b"; lit "strong"] = false
  /\ str_in name [lit "i"; lit "em"] = false
  /\ str_eqb name (lit "u") = false
  /\ str_eqb name (lit "a") = false.
Proof.
  unfold str_in. cbn [existsb]. rewrite !orb_true_iff, !str_eqb_eq.
  intros [->|[->|H]]; [| |discriminate H]; repeat split; reflexivity.
Qed.

(** C3. The wrappers of an element are emitted in one fixed order of
    steps, innermost first: the wrapper of the tag name (b, i, u, sup or
    sub), then bold, italic and underline triggered by the style, then
    bold, italic and underline triggered by a class, then the link, then
    the font face, with the font colour outermost.  When bold, italic and
    underline are all triggered by the style alone, or all by classes
    alone, on an anchor with a destination and a font face, the nesting is
    bold innermost, then italic, underline, link, font face.  A sup or sub
    wrapper is the innermost one and never goes with a link. *)
Theorem C3_wrapper_order lower nm (a : attrs) (ch : list node) :
  let name := lower nm in
  let inner := join (map (_render_node lower) ch) in
  str_in name [lit "br"; lit "hr"] = false ->
  inner <> [] ->
  _render_node lower (Element nm a ch)
  = fold_left wrap_with (wrappers lower name a) inner
  /\ (name = lit "a" -> truthy (or_empty (at_href a)) = true ->
      truthy (face_of a) = true ->
      (bold_by_style lower a = true /\ italic_by_style lower a = true
       /\ underline_by_style lower a = true
       /\ by_class lower (lit "bold") a = false
       /\ by_class lower (lit "italic") a = false
       /\ by_class lower (lit "underline") a = false)
      \/ (bold_by_style lower a = false /\ italic_by_style lower a = false
          /\ underline_by_style lower a = false
          /\ by_class lower (lit "bold") a = true
          /\ by_class lower (lit "italic") a = true
          /\ by_class lower (lit "underline") a = true) ->
      _render_node lower (Element nm a ch)
      = fold_left wrap_with
          [WTag (lit "b"); WTag (lit "i"); WTag (lit "u");
           WLink (or_empty (at_href a)); WFace (face_of a)]
          inner)
  /\ (str_in name [lit "sup"; lit "sub"] = true ->
      exists outer,
        wrappers lower name a = WTag name :: outer
        /\ forall href, ~ In (WLink href) outer).
Proof.
  intros name inner Hname Hinner.
  assert (E := render_element_wrappers lower nm a ch Hname Hinner).
  fold name in E. fold inner in E.
  split; [exact E|]. split.
  - intros Ha Hhref Hface Hsrc. rewrite E. f_equal.
    unfold wrappers. rewrite Ha, Hhref, Hface.
    destruct Hsrc as [(-> & -> & -> & -> & -> & ->)|(-> & -> & -> & -> & -> & ->)];
      reflexivity.
  - intros Hsup.
    destruct (sup_sub_name name Hsup) as (Hb & Hi & Hu & Ha).
    unfold wrappers. rewrite Hb, Hi, Hu, Hsup, Ha.
    cbn [when app andb].
    eexists. split; [reflexivity|].
    intros href Hin.
    repeat (apply in_app_or in Hin; destruct Hin as [Hin|Hin];
            [unfold when in Hin;
             match type of Hin with
             | In _ (if ?c then _ else _) => destruct c
             end; simpl in Hin; intuition discriminate|]).
    unfold when in Hin.
    match type of Hin with
    | In _ (if ?c then _ else _) => destruct c
    end; simpl in Hin; intuition discriminate.
Qed.

Lemma C3_wrapper_order_witness :
  render_inline
    (elem "a"
       (mk_attrs
          (Some (lit "font-weight:bold; font-style:italic; text-decoration:underline"))
          None None (Some (lit "https://example.org/p?a=1&b=2"))
          (Some (lit "DejaVuSans")) None None)
       [txt "x"])
  = fold_left wrap_with
      [WTag (lit "b"); WTag (lit "i"); WTag (lit "u");
       WLink (lit "https://example.org/p?a=1&b=2"); WFace (lit "DejaVuSans")]
      (lit "x").
Proof.
  refine (proj1 (proj2 (C3_wrapper_order ascii_lower (lit "a") _ [txt "x"] _ _))
            _ _ _ _).
  - reflexivity.
  - vm_compute. discriminate.
  - reflexivity.
  - reflexivity.
  - reflexivity.
  - left. repeat split; reflexivity.
Defined.

(** The claim as worded fails when the conditions are triggered from
    different places: with italic and underline from the style and bold
    from a class, bold is outside underline. *)
Lemma C3_counterexample :
  ~ (forall nm (a : attrs) (ch : list node),
        let name := ascii_lower nm in
        let inner := join (map (_render_node ascii_lower) ch) in
        is_bold ascii_lower name a = true ->
        is_italic ascii_lower name a = true ->
        is_underline ascii_lower name a = true ->
        str_eqb name (lit "a") && truthy (or_empty (at_href a)) = true ->
        truthy (face_of a) = true ->
        inner <> [] ->
        _render_node ascii_lower (Element nm a ch)
        = fold_left wrap_with
            [WTag (lit "b"); WTag (lit "i"); WTag (lit "u");
             WLink (or_empty (at_href a)); WFace (face_of a)]
            inner).
Proof.
  intros H.
  specialize (H (lit "a")
                (mk_attrs (Some (lit "font-style:italic;text-decoration:underline"))
                   None (Some [lit "bold"]) (Some (lit "h")) (Some (lit "f"))
                   None None)
                [txt "x"]).
  cbv zeta in H.
  specialize (H eq_refl eq_refl eq_refl eq_refl eq_refl).
  assert (Hne : join (map (_render_node ascii_lower) [txt "x"]) <> [])
    by (vm_compute; discriminate).
  specialize (H Hne). vm_compute in H. discriminate H.
Qed.

(** ** Whitespace *)

Lemma isspace_plain (c : N) :
  isspace c = true -> c <> 38 /\ c <> 60 /\ c <> 62 /\ is_yi c = false.
Proof.
  intros H. repeat split; try (intros ->; vm_compute in H; discriminate H).
  destruct (is_yi c) eqn:E; [|reflexivity].
  unfold is_yi in E. apply andb_true_iff in E as [E1 E2].
  apply N.leb_le in E1, E2.
  unfold isspace in H.
  rewrite !orb_true_iff, !andb_true_iff, !N.leb_le, !N.eqb_eq in H. lia.
Qed.

Lemma lstrip_ws (s : str) : ws_only s = true -> lstrip s = [].
Proof.
  induction s as [|c s IH]; simpl; [reflexivity|].
  intros H. apply andb_true_iff in H as [Hc Hs]. now rewrite Hc, IH.
Qed.

Lemma strip_ws (s : str) : ws_only s = true -> strip s = [].
Proof. intros H. unfold strip. now rewrite lstrip_ws. Qed.

Lemma ws_only_join (l : list str) :
  Forall (fun s => ws_only s = true) l -> ws_only (join l) = true.
Proof.
  induction 1 as [|s l Hs _ IH]; [reflexivity|].
  unfold join in *. simpl. unfold ws_only in *. now rewrite forallb_app, Hs, IH.
Qed.

Lemma normalize_nbsp_ws (t : str) :
  ws_only t = true -> ws_only (normalize_nbsp t) = true.
Proof.
  induction t as [|c t IH]; simpl; [reflexivity|].
  intros H. apply andb_true_iff in H as [Hc Ht].
  rewrite IH by assumption.
  destruct (c =? 160); [reflexivity|now rewrite Hc].
Qed.

Lemma escape_ws (s : str) : ws_only s = true -> flat_map escape_cp s = s.
Proof.
  unfold ws_only.
  induction s as [|c s IH]; cbn [flat_map forallb]; [reflexivity|].
  intros H. apply andb_true_iff in H as [Hc Hs].
  destruct (isspace_plain c Hc) as (H38 & H60 & H62 & _).
  rewrite IH by assumption.
  unfold escape_cp. apply N.eqb_neq in H38, H60, H62.
  rewrite H38, H60, H62. reflexivity.
Qed.

Lemma ws_no_yi (s : str) :
  ws_only s = true -> forallb (fun c => negb (is_yi c)) s = true.
Proof.
  induction s as [|c s IH]; simpl; [reflexivity|].
  intros H. apply andb_true_iff in H as [Hc Hs].
  destruct (isspace_plain c Hc) as (_ & _ & _ & Hyi).
  now rewrite Hyi, IH.
Qed.

Lemma render_text_ws lower (t : str) :
  ws_only t = true -> ws_only (_render_node lower (Text t)) = true.
Proof.
  intros H. rewrite render_text_pipeline.
  apply normalize_nbsp_ws in H.
  rewrite escape_ws by assumption.
  rewrite wrap_yi_none by now apply ws_no_yi.
  assumption.
Qed.

(** ** Nodes without renderable content *)

Lemma join_nil (l : list str) : Forall (fun s => s = []) l -> join l = [].
Proof.
  induction 1 as [|s l Hs _ IH]; [reflexivity|].
  unfold join in *. simpl. now rewrite Hs, IH.
Qed.

Lemma vanishes_render lower (n : node) :
  vanishes lower n = true -> _render_node lower n = [].
Proof.
  induction n as [t| |nm a ch IH] using node_forall_ind; intros H.
  - destruct t; [reflexivity|discriminate H].
  - reflexivity.
  - cbn [vanishes] in H. apply andb_true_iff in H as [Hname Hch].
    apply negb_true_iff in Hname.
    unfold str_in in Hname. cbn [existsb] in Hname.
    rewrite !orb_false_iff in Hname. destruct Hname as (Hbr & Hhr & Himg & _).
    cbn [_render_node]. rewrite Hbr, Hhr.
    assert (E : join (map (_render_node lower) ch) = []).
    { apply join_nil. rewrite Forall_map.
      rewrite forallb_forall in Hch. rewrite Forall_forall in *.
      intros c Hc. apply IH; auto. }
    rewrite E. unfold str_in. cbn [existsb truthy negb andb].
    now rewrite Himg.
Qed.

Lemma collapses_render lower (n : node) :
  collapses lower n = true -> ws_only (_render_node lower n) = true.
Proof.
  induction n as [t| |nm a ch IH] using node_forall_ind; intros H.
  - now apply render_text_ws.
  - reflexivity.
  - cbn [collapses] in H.
    apply andb_true_iff in H as [H Hwrap].
    apply andb_true_iff in H as [Hname Hch].
    apply negb_true_iff in Hname.
    unfold str_in in Hname. cbn [existsb] in Hname.
    rewrite !orb_false_iff in Hname. destruct Hname as (Hbr & Hhr & _).
    cbn [_render_node]. rewrite Hbr, Hhr.
    assert (Hws : ws_only (join (map (_render_node lower) ch)) = true).
    { apply ws_only_join. rewrite Forall_map.
      rewrite forallb_forall in Hch. rewrite Forall_forall in *.
      intros c Hc. apply IH; auto. }
    destruct (negb (truthy (join (map (_render_node lower) ch)))
              && negb (str_in (lower nm) [lit "img"])) eqn:E; [reflexivity|].
    apply orb_true_iff in Hwrap as [Hvan|Hnone].
    + apply andb_true_iff in Hvan as [Himg Hvan].
      assert (E0 : join (map (_render_node lower) ch) = []).
      { apply join_nil. rewrite Forall_map.
        rewrite forallb_forall in Hvan. apply Forall_forall.
        intros c Hc. apply vanishes_render; auto. }
      rewrite E0, Himg in E. discriminate E.
    + rewrite wrap_element_wrappers.
      destruct (wrappers lower (lower nm) a); [exact Hws|discriminate Hnone].
Qed.

Lemma collapses_children lower (n : node) :
  collapses lower n = true ->
  ws_only (_render_inline_children lower (children_of n)) = true.
Proof.
  destruct n as [t|nm a ch|]; [reflexivity| |reflexivity].
  cbn [collapses children_of]. intros H.
  apply andb_true_iff in H as [H _]. apply andb_true_iff in H as [_ Hch].
  unfold _render_inline_children. apply ws_only_join. rewrite Forall_map.
  rewrite forallb_forall in Hch. apply Forall_forall.
  intros c Hc. apply collapses_render; auto.
Qed.

Lemma collapses_blank lower (n : node) :
  collapses lower n = true -> blank lower n = true.
Proof.
  destruct n as [t|nm a ch|]; [auto| |auto].
  cbn [collapses blank]. intros H.
  apply andb_true_iff in H as [H _]. apply andb_true_iff in H as [Hname Hch].
  rewrite Hch, andb_true_r.
  apply negb_true_iff in Hname. unfold str_in in Hname. cbn [existsb] in Hname.
  rewrite !orb_false_iff in Hname. destruct Hname as (_ & Hhr & _).
  now rewrite Hhr.
Qed.

(** ** The block renderer: lists and paragraphs *)

Lemma list_items_acc lower (lis : list node) : forall acc,
  fold_left
    (fun items li =>
       let item_inner := strip (_render_inline_children lower (children_of li)) in
       if truthy item_inner
       then items ++ [lit "<li>" ++ item_inner ++ lit "</li>"]
       else items)
    lis acc
  = acc ++ map (fun inner => lit "<li>" ++ inner ++ lit "</li>")
             (filter truthy
                (map (fun li => strip (_render_inline_children lower (children_of li)))
                     lis)).
Proof.
  induction lis as [|li lis IH]; intros acc; cbn [fold_left map filter].
  - now rewrite app_nil_r.
  - rewrite IH. cbv zeta.
    destruct (truthy (strip (_render_inline_children lower (children_of li)))).
    + cbn [map]. now rewrite <- app_assoc.
    + reflexivity.
Qed.

Lemma list_items_bare lower (ch : list node) :
  list_items lower (filter is_li ch) = bare_items lower ch.
Proof. unfold list_items, bare_items. now rewrite list_items_acc. Qed.

Lemma element_blocks_bare lower (name : str) (ch : list node) :
  element_blocks lower name ch [] = bare_element_blocks lower name ch.
Proof.
  unfold element_blocks, bare_element_blocks, bare_block.
  rewrite list_items_bare.
  destruct (str_in name [lit "p"; lit "section"; lit "article"]); [reflexivity|].
  destruct (str_in name [lit "h1"; lit "h2"; lit "h3"; lit "h4"]); [reflexivity|].
  destruct (str_eqb name (lit "blockquote")); [reflexivity|].
  destruct (str_in name [lit "ul"; lit "ol"]); [|reflexivity].
  destruct (bare_items lower ch); [reflexivity|].
  cbn [nonempty truthy]. unfold apply_wrapper.
  cbn [app]. now rewrite app_nil_r.
Qed.

Lemma element_blocks_blank lower (name : str) (ch : list node) (align_attr : str) :
  str_eqb name (lit "hr") = false ->
  Forall (fun c => collapses lower c = true) ch ->
  element_blocks lower name ch align_attr = [].
Proof.
  intros Hhr Hch.
  assert (Hinner : strip (_render_inline_children lower ch) = []).
  { apply strip_ws. unfold _render_inline_children.
    apply ws_only_join. rewrite Forall_map.
    eapply Forall_impl; [|exact Hch]. intros c Hc. now apply collapses_render. }
  assert (Hitems : list_items lower (filter is_li ch) = []).
  { rewrite list_items_bare. unfold bare_items.
    assert (E : filter truthy
                  (map (fun li => strip (_render_inline_children lower (children_of li)))
                       (filter is_li ch)) = []).
    { clear Hinner. induction Hch as [|c ch Hc _ IH]; [reflexivity|].
      cbn [filter]. destruct (is_li c); [|exact IH].
      cbn [map filter].
      rewrite (strip_ws _ (collapses_children lower c Hc)). exact IH. }
    now rewrite E. }
  unfold element_blocks. rewrite Hinner, Hitems, Hhr. cbn [truthy].
  repeat match goal with
         | |- context [if ?b then _ else _] => destruct b
         end; reflexivity.
Qed.

Lemma flat_map_nil {A B : Type} (f : A -> list B) (l : list A) :
  Forall (fun x => f x = []) l -> flat_map f l = [].
Proof.
  induction 1 as [|x l Hx _ IH]; [reflexivity|].
  simpl. now rewrite Hx, IH.
Qed.

Lemma blank_no_blocks lower (n : node) :
  blank lower n = true -> forall inh, _render_blocks_from_node lower n inh = [].
Proof.
  induction n as [t| |nm a ch IH] using node_forall_ind; intros H inh.
  - cbn [blank] in H. cbn [_render_blocks_from_node].
    now rewrite (strip_ws _ (render_text_ws lower t H)).
  - reflexivity.
  - cbn [blank] in H. apply andb_true_iff in H as [Hhr Hch].
    apply negb_true_iff in Hhr.
    rewrite forallb_forall in Hch. rewrite <- Forall_forall in Hch.
    rewrite render_blocks_element. cbv zeta.
    rewrite flat_map_nil.
    + cbn [nonempty]. rewrite andb_false_r.
      now apply element_blocks_blank.
    + rewrite Forall_forall in *. intros c Hc.
      apply IH; [assumption|]. apply collapses_blank. now apply Hch.
Qed.

Lemma vanishes_all_text_blank lower (n : node) :
  vanishes lower n = true -> all_text_blank n = true.
Proof.
  induction n as [t| |nm a ch IH] using node_forall_ind; intros H.
  - destruct t; [reflexivity|discriminate H].
  - reflexivity.
  - cbn [vanishes] in H. apply andb_true_iff in H as [_ Hch].
    cbn [all_text_blank]. rewrite forallb_forall in *. rewrite Forall_forall in IH.
    intros c Hc. apply IH; auto.
Qed.

Lemma collapses_all_text_blank lower (n : node) :
  collapses lower n = true -> all_text_blank n = true.
Proof.
  induction n as [t| |nm a ch IH] using node_forall_ind; intros H.
  - exact H.
  - reflexivity.
  - cbn [collapses] in H.
    apply andb_true_iff in H as [H _]. apply andb_true_iff in H as [_ Hch].
    cbn [all_text_blank]. rewrite forallb_forall in *. rewrite Forall_forall in IH.
    intros c Hc. apply IH; auto.
Qed.

Lemma blank_all_text_blank lower (n : node) :
  blank lower n = true -> all_text_blank n = true.
Proof.
  destruct n as [t|nm a ch|]; [auto| |auto].
  cbn [blank all_text_blank]. intros H.
  apply andb_true_iff in H as [_ Hch].
  rewrite forallb_forall in *. intros c Hc.
  apply (collapses_all_text_blank lower). auto.
Qed.

(** C2. A node produces no block, under every inherited alignment, when
    it is not an hr element, every text node below it is empty or
    whitespace-only, no element below it is a br or hr, and every element
    below it that is or holds an img element, or holds a non-empty text
    node, has no inline wrapper; in particular an empty p element produces
    no block. *)
Theorem C2_blank_node_no_block lower (n : node) (inherited : str) :
  blank lower n = true ->
  all_text_blank n = true
  /\ _render_blocks_from_node lower n inherited = []
  /\ render_blocks (elem "p" no_attrs []) inherited = [].
Proof.
  intros H. split; [now apply (blank_all_text_blank lower)|].
  split; [now apply blank_no_blocks|].
  apply (blank_no_blocks ascii_lower). reflexivity.
Qed.

Lemma C2_blank_node_no_block_witness :
  render_blocks
    (elem "div" no_attrs
       [txt "  "; elem "p" no_attrs [elem "span" no_attrs [Text [160; 10]]];
        elem "ul" no_attrs [elem "li" no_attrs [elem "b" no_attrs [Text []]]]])
    (lit "C")
  = [].
Proof.
  apply (C2_blank_node_no_block ascii_lower). reflexivity.
Defined.

(** The claim as worded fails on whitespace inside a formatting element:
    every text node below the paragraph is whitespace-only, and it still
    gives a block. *)
Lemma C2_counterexample :
  ~ (forall (n : node) (inherited : str),
        all_text_blank n = true -> render_blocks n inherited = []).
Proof.
  intros H.
  specialize (H (elem "p" no_attrs [elem "b" no_attrs [txt " "]]) (lit "L") eq_refl).
  vm_compute in H. discriminate H.
Qed.

(** Further nodes without any text that still give a block: the divider,
    a line break, and an image with a wrapper (an empty tag pair). *)
Lemma blocks_without_text :
  render_blocks (elem "hr" no_attrs []) (lit "L") = [lit "<hr/>"]
  /\ render_blocks (elem "p" no_attrs [elem "br" no_attrs []]) (lit "L")
     = [lit "<p><br/></p>"]
  /\ render_blocks (elem "p" no_attrs [elem "img" (with_class ["bold"%string]) []])
       (lit "L")
     = [lit "<p><b></b></p>"].
Proof. repeat split; vm_compute; reflexivity. Qed.

Lemma list_name (name : str) :
  str_in name [lit "ul"; lit "ol"] = true ->
  str_eqb name (lit "div") = false
  /\ str_in name [lit "p"; lit "section"; lit "article"] = false
  /\ str_in name [lit "h1"; lit "h2"; lit "h3"; lit "h4"] = false
  /\ str_eqb name (lit "blockquote") = false.
Proof.
  unfold str_in. cbn [existsb]. rewrite !orb_true_iff, !str_eqb_eq.
  intros [->|[->|H]]; [| |discriminate H]; repeat split; reflexivity.
Qed.

(** C7. For a ul or ol element the list items are the direct children
    named li whose inline content is non-empty after trimming, in source
    order.  With no such item there is no block; otherwise there is exactly
    one block, the list with its items, put in a div carrying the alignment
    only when the resolved alignment is not left.  The list with the items
    One, empty, Two gives one block with the two items One and Two. *)
Theorem C7_list_block lower nm (a : attrs) (ch : list node) (inherited : str) :
  str_in (lower nm) [lit "ul"; lit "ol"] = true ->
  let node_align := resolve_alignment lower a inherited in
  let items :=
    map (fun inner => lit "<li>" ++ inner ++ lit "</li>")
      (filter truthy
         (map (fun li => strip (_render_inline_children lower (children_of li)))
              (filter is_li ch))) in
  let list_markup := apply_wrapper (join items) (lower nm) in
  _render_blocks_from_node lower (Element nm a ch) inherited
  = (if nonempty items
     then [if str_eqb node_align (lit "L") then list_markup
           else div_wrap node_align list_markup]
     else [])
  /\ render_blocks
       (elem "ul" no_attrs
          [elem "li" no_attrs [txt "One"]; elem "li" no_attrs [];
           elem "li" no_attrs [txt "Two"]])
       (lit "L")
     = [lit "<ul><li>One</li><li>Two</li></ul>"].
Proof.
  intros Hlist node_align items list_markup.
  split; [|vm_compute; reflexivity].
  destruct (list_name _ Hlist) as (Hdiv & Hp & Hh & Hq).
  rewrite render_blocks_element. cbv zeta. fold node_align.
  rewrite Hdiv. cbn [andb].
  unfold element_blocks. rewrite Hp, Hh, Hq, Hlist.
  rewrite list_items_bare. unfold bare_items. fold items.
  destruct items as [|i items']; [reflexivity|].
  cbn [nonempty]. rewrite truthy_align_attr.
  unfold list_markup, apply_wrapper.
  destruct (str_eqb node_align (lit "L")) eqn:E; cbn [negb].
  - cbn [app]. now rewrite app_nil_r.
  - rewrite <- div_wrap_eq by assumption.
    now rewrite <- !app_assoc.
Qed.

Lemma C7_list_block_witness :
  render_blocks
    (elem "OL" (with_class ["text-center"%string])
       [elem "li" no_attrs [txt "a"]; txt "stray"; elem "p" no_attrs [txt "no item"];
        elem "li" no_attrs [txt "  "]; elem "li" no_attrs [elem "i" no_attrs [txt "b"]]])
    (lit "L")
  = [div_wrap (lit "C") (lit "<ol><li>a</li><li><i>b</i></li></ol>")].
Proof.
  refine (proj1 (C7_list_block ascii_lower (lit "OL") (with_class ["text-center"%string])
                   _ (lit "L") _)).
  reflexivity.
Defined.

(** C9. A text leaf at block level with a non-empty trimmed rendering
    gives one paragraph that always carries an align attribute, the word
    of the inherited alignment, which is align="left" under the default.
    A block that comes from an element whose resolved alignment is left
    has no align attribute: it is the bare tag around the content, and the
    blocks of the children of a div pass through as they are. *)
Theorem C9_align_attribute :
  (forall lower (t : str) (inherited : str),
      let content := strip (_render_node lower (Text t)) in
      content <> [] ->
      _render_blocks_from_node lower (Text t) inherited
      = [lit "<p align=" ++ dq ++ align_word_of inherited ++ dq ++ lit ">"
           ++ content ++ lit "</p>"])
  /\ align_word_of (lit "L") = lit "left"
  /\ (forall lower nm (a : attrs) (ch : list node) (inherited : str),
        resolve_alignment lower a inherited = lit "L" ->
        _render_blocks_from_node lower (Element nm a ch) inherited
        = let child_blocks :=
            flat_map (fun c => _render_blocks_from_node lower c (lit "L")) ch in
          if str_eqb (lower nm) (lit "div") && nonempty child_blocks
          then child_blocks
          else bare_element_blocks lower (lower nm) ch).
Proof.
  split.
  { intros lower t inherited content H.
    cbn [_render_blocks_from_node]. fold content.
    apply truthy_true in H. now rewrite H. }
  split; [reflexivity|].
  intros lower nm a ch inherited H.
  rewrite render_blocks_element. cbv zeta. rewrite H.
  change (str_eqb (lit "L") (lit "L")) with true. cbv iota.
  rewrite align_attr_left, element_blocks_bare. reflexivity.
Qed.

Lemma C9_align_attribute_witness :
  render_blocks (txt " loose text ") (lit "L")
  = [lit "<p align=" ++ dq ++ lit "left" ++ dq ++ lit ">loose text</p>"]
  /\ render_blocks (elem "h2" no_attrs [txt "Title"]) (lit "L") = [lit "<h2>Title</h2>"].
Proof.
  split.
  - refine (proj1 C9_align_attribute ascii_lower (lit " loose text ") (lit "L") _).
    vm_compute. discriminate.
  - refine (proj2 (proj2 C9_align_attribute) ascii_lower (lit "h2") no_attrs
              [txt "Title"] (lit "L") _).
    reflexivity.
Defined.

(** C10. A div whose children give no child block does not return there:
    the fallback rule renders the inline content of the div and gives one
    paragraph when that content is non-empty after trimming, nothing
    otherwise.  A div holding only a br element gives one paragraph holding
    the line-break tag. *)
Theorem C10_div_fallback lower nm (a : attrs) (ch : list node) (inherited : str) :
  lower nm = lit "div" ->
  let node_align := resolve_alignment lower a inherited in
  flat_map (fun c => _render_blocks_from_node lower c node_align) ch = [] ->
  let inner := strip (_render_inline_children lower ch) in
  _render_blocks_from_node lower (Element nm a ch) inherited
  = (if truthy inner
     then [lit "<p" ++ align_attr_of node_align ++ lit ">" ++ inner ++ lit "</p>"]
     else [])
  /\ render_blocks (elem "div" no_attrs [elem "br" no_attrs []]) (lit "L")
     = [lit "<p><br/></p>"].
Proof.
  intros Hdiv node_align Hnone inner.
  split; [|vm_compute; reflexivity].
  rewrite render_blocks_element. cbv zeta. fold node_align.
  rewrite Hnone, Hdiv. cbn [nonempty]. rewrite andb_false_r.
  reflexivity.
Qed.

Lemma C10_div_fallback_witness :
  render_blocks
    (elem "div" (with_style "text-align:center")
       [elem "br" no_attrs []; txt "  "; elem "br" no_attrs []; txt " "])
    (lit "L")
  = [lit "<p align=" ++ dq ++ lit "center" ++ dq ++ lit ">" ++ lit "<br/>  <br/></p>"].
Proof.
  refine (proj1 (C10_div_fallback ascii_lower (lit "div") (with_style "text-align:center")
                   _ (lit "L") _ _)).
  - reflexivity.
  - vm_compute. reflexivity.
Defined.

(** ** The run *)

Lemma extends_refl (log : list event) : extends log log.
Proof. exists []. now rewrite app_nil_r. Qed.

Lemma extends_trans (l1 l2 l3 : list event) :
  extends l1 l2 -> extends l2 l3 -> extends l1 l3.
Proof.
  intros [r1 ->] [r2 ->]. exists (r1 ++ r2). now rewrite app_assoc.
Qed.

Lemma bind_extends {A B : Type} (c : run A) (k : A -> run B) :
  (forall log, extends log (fst (c log))) ->
  (forall x log, extends log (fst (k x log))) ->
  forall log, extends log (fst (bind c k log)).
Proof.
  intros Hc Hk log. unfold bind.
  specialize (Hc log). destruct (c log) as [log' [e|x]]; simpl in *.
  - exact Hc.
  - eapply extends_trans; [exact Hc|apply Hk].
Qed.

Section RunFacts.

Variable lower : str -> str.
Variable is_digit : N -> bool.
Variable urljoin : str -> str -> str.
Variable _clean_part_title : str -> str.
Variable http_get : str -> option str -> option response.
Variable parse_overview : str -> overview_page.
Variable parse_html : str -> list node.

Lemma session_get_log (url : str) (id_param : option str) (log : list event) :
  fst (session_get http_get url id_param log) = log ++ [Request url id_param].
Proof.
  unfold session_get. destruct (http_get url id_param) as [resp|]; [|reflexivity].
  destruct (status_raises resp); reflexivity.
Qed.

Lemma session_get_extends (url : str) (id_param : option str) (log : list event) :
  extends log (fst (session_get http_get url id_param log)).
Proof. rewrite session_get_log. now exists [Request url id_param]. Qed.

Lemma fetch_part_blocks_extends (id : str) (log : list event) :
  extends log (fst (fetch_part_blocks lower http_get parse_html id log)).
Proof.
  revert log. unfold fetch_part_blocks.
  apply bind_extends; [apply session_get_extends|].
  intros resp. apply bind_extends.
  - intros log. destruct (contains _ _); [|apply extends_refl].
    destruct (json_text resp); apply extends_refl.
  - intros body log. destruct (negb _); apply extends_refl.
Qed.

Lemma fetch_chapters_extends (parts : list part) : forall chapters log,
  extends log
    (fst (fetch_chapters lower _clean_part_title http_get parse_html
            parts chapters log)).
Proof.
  induction parts as [|p parts IH]; intros chapters log.
  - apply extends_refl.
  - cbn [fetch_chapters]. revert log.
    apply bind_extends; [apply fetch_part_blocks_extends|].
    intros blocks log. apply IH.
Qed.

Lemma bind_unfold {A B : Type} (c : run A) (k : A -> run B) (log : list event) :
  bind c k log
  = match c log with
    | (log', inr x) => k x log'
    | (log', inl e) => (log', inl e)
    end.
Proof. reflexivity. Qed.

(** The overview scrape makes one request, for the story URL. *)
Lemma scrape_log (url : str) (log : list event) :
  fst (scrape_story_overview is_digit urljoin _clean_part_title http_get
         parse_overview url log)
  = log ++ [Request url None].
Proof.
  unfold scrape_story_overview. rewrite bind_unfold.
  pose proof (session_get_log url None log) as Hlog.
  destruct (session_get http_get url None log) as [log1 [e|resp]];
    simpl in Hlog; subst log1; [reflexivity|].
  destruct (page_title _) as [title|]; [|reflexivity].
  destruct (scrape_parts _ _ _ _ _ _) as [e|[|p parts]]; reflexivity.
Qed.

(** The first thing [main] does is to request the story URL. *)
Lemma main_first_request (url : str) (log : list event) :
  exists rest,
    fst (main lower is_digit urljoin _clean_part_title http_get
           parse_overview parse_html url log)
    = log ++ Request url None :: rest.
Proof.
  unfold main. rewrite bind_unfold.
  pose proof (scrape_log url log) as Hlog.
  destruct (scrape_story_overview _ _ _ _ _ url log) as [log1 [e|[title parts]]];
    simpl in Hlog; subst log1.
  - exists []. reflexivity.
  - destruct (bind_extends
                (fetch_chapters lower _clean_part_title http_get parse_html parts [])
                (fun chapters => ret (title, chapters))
                (fetch_chapters_extends parts [])
                (fun x l => extends_refl l)
                (log ++ [Request url None])) as [rest Hrest].
    exists rest. rewrite Hrest. now rewrite <- app_assoc.
Qed.

Lemma forallb_rev' {A : Type} (f : A -> bool) (l : list A) :
  forallb f (rev l) = forallb f l.
Proof.
  induction l as [|x l IH]; [reflexivity|].
  simpl. rewrite forallb_app, IH. simpl.
  now rewrite andb_true_r, andb_comm.
Qed.

Lemma find_none_forallb {A : Type} (f : A -> bool) (l : list A) :
  find f l = None <-> forallb (fun x => negb (f x)) l = true.
Proof.
  induction l as [|x l IH]; simpl; [tauto|].
  destruct (f x); simpl; [split; discriminate|exact IH].
Qed.

Lemma forallb_filter_truthy (l : list str) :
  forallb (fun p => negb (starts_with_digit is_digit p)) (filter truthy l)
  = forallb (fun p => negb (starts_with_digit is_digit p)) l.
Proof.
  induction l as [|p l IH]; [reflexivity|].
  simpl. destruct p as [|c p]; simpl; [exact IH|now rewrite IH].
Qed.

(** [extract_story_id] fails exactly when no segment of the URL begins
    with a digit, and its only failure is the [ValueError]. *)
Lemma extract_story_id_fails (url : str) :
  (extract_story_id is_digit url = inl ValueError
   <-> forallb (fun p => negb (starts_with_digit is_digit p)) (split 47 url) = true)
  /\ (forall e, extract_story_id is_digit url = inl e -> e = ValueError).
Proof.
  unfold extract_story_id. split.
  - rewrite <- forallb_filter_truthy.
    rewrite <- (forallb_rev' _ (filter truthy (split 47 url))).
    rewrite <- find_none_forallb.
    destruct (find _ _); split; congruence.
  - intros e. destruct (find _ _); congruence.
Qed.

Lemma scrape_parts_fails (url : str) (anchors : list (str * str)) : forall parts,
  Exists (fun anchor =>
            extract_story_id is_digit (urljoin url (fst anchor)) = inl ValueError)
         anchors ->
  scrape_parts is_digit urljoin _clean_part_title url anchors parts = inl ValueError.
Proof.
  induction anchors as [|[href text] anchors IH]; intros parts H.
  - inversion H.
  - cbn [scrape_parts].
    destruct (extract_story_id is_digit (urljoin url href)) as [e|id] eqn:E.
    + f_equal. now apply (proj2 (extract_story_id_fails (urljoin url href))).
    + apply IH. inversion H as [? ? H0|? ? H0]; subst; [|exact H0].
      simpl in H0. congruence.
Qed.

(** C8. The program does not check the story reference before it uses the
    network: whatever the reference looks like, the first thing a run does
    is to request it.  The identifier check, which fails exactly when no
    segment of a URL begins with a digit, is applied to the part links of
    the fetched overview page; when one of them fails it, the run raises
    the error after that single request and before any request for a
    chapter. *)
Theorem C8_request_precedes_id_check (url : str) :
  (exists rest,
      fst (main lower is_digit urljoin _clean_part_title http_get
             parse_overview parse_html url [])
      = Request url None :: rest)
  /\ (extract_story_id is_digit url = inl ValueError
      <-> forallb (fun p => negb (starts_with_digit is_digit p)) (split 47 url)
          = true)
  /\ (forall resp title,
        http_get url None = Some resp ->
        status_raises resp = false ->
        page_title (parse_overview (resp_text resp)) = Some title ->
        Exists
          (fun anchor =>
             extract_story_id is_digit (urljoin url (fst anchor)) = inl ValueError)
          (part_anchors (parse_overview (resp_text resp))) ->
        main lower is_digit urljoin _clean_part_title http_get
          parse_overview parse_html url []
        = ([Request url None], inl ValueError)).
Proof.
  split; [exact (main_first_request url [])|].
  split; [exact (proj1 (extract_story_id_fails url))|].
  intros resp title Hget Hstatus Htitle Hbad.
  unfold main, scrape_story_overview. rewrite !bind_unfold.
  unfold session_get. rewrite Hget, Hstatus, Htitle.
  rewrite (scrape_parts_fails url _ [] Hbad). reflexivity.
Qed.

End RunFacts.

Lemma C8_request_precedes_id_check_witness :
  main ascii_lower ascii_digit sample_urljoin (fun title => title)
    sample_http_get
    (fun _ => mk_overview (Some (lit "My Story")) None None
                [(lit "/123-one", lit "One"); (lit "/about", lit "About")])
    sample_parse_html sample_url []
  = ([Request sample_url None], inl ValueError).
Proof.
  refine (proj2 (proj2 (C8_request_precedes_id_check ascii_lower ascii_digit
                          sample_urljoin (fun title => title) sample_http_get
                          (fun _ => mk_overview (Some (lit "My Story")) None None
                                      [(lit "/123-one", lit "One");
                                       (lit "/about", lit "About")])
                          sample_parse_html sample_url))
            (mk_response false (lit "text/html") (lit "overview") None)
            (lit "My Story") eq_refl eq_refl eq_refl _).
  apply Exists_cons_tl. apply Exists_cons_hd. reflexivity.
Defined.

(** The claim as worded fails: for a story link without any number the
    run requests the overview page and then the chapter, and ends without
    an error. *)
Lemma C8_counterexample :
  extract_story_id ascii_digit sample_url = inl ValueError
  /\ sample_main sample_url []
     = ([Request sample_url None;
         Request storytext_url (Some (lit "123456"))],
        inr (lit "My Story", [mk_chapter (lit "Chapter One") [lit "<p>Hi</p>"]]))
  /\ ~ (exists e, sample_main sample_url [] = ([], inl e)).
Proof.
  split; [vm_compute; reflexivity|].
  split; [vm_compute; reflexivity|].
  intros [e H]. vm_compute in H. discriminate H.
Qed.

(** ** Stripping *)

Lemma lstrip_drop_while (s : str) : lstrip s = drop_while isspace s.
Proof. induction s as [|c s IH]; simpl; [reflexivity|]. now rewrite IH. Qed.

Lemma drop_while_suffix (p : N -> bool) (s : str) :
  exists pre, s = pre ++ drop_while p s /\ forallb p pre = true.
Proof.
  induction s as [|c s (pre & E & H)]; simpl.
  - exists []. auto.
  - destruct (p c) eqn:Hc.
    + exists (c :: pre). simpl. rewrite Hc, H. split; [now f_equal|reflexivity].
    + exists []. auto.
Qed.

Lemma drop_while_head (p : N -> bool) (s : str) (c : N) (rest : str) :
  drop_while p s = c :: rest -> p c = false.
Proof.
  induction s as [|d s IH]; simpl; [discriminate|].
  destruct (p d) eqn:Hd; [exact IH|].
  intros E. injection E as -> _. exact Hd.
Qed.

Lemma drop_while_id (p : N -> bool) (s : str) (d : N) :
  s <> [] -> p (hd d s) = false -> drop_while p s = s.
Proof.
  destruct s as [|c s]; [congruence|]. simpl. intros _ H. now rewrite H.
Qed.

Lemma rstrip_by_prefix (p : N -> bool) (s : str) :
  exists suf, s = rstrip_by p s ++ suf /\ forallb p suf = true.
Proof.
  unfold rstrip_by.
  destruct (drop_while_suffix p (rev s)) as (pre & E & H).
  exists (rev pre). split.
  - rewrite <- rev_app_distr, <- E. now rewrite rev_involutive.
  - clear E. induction pre as [|c pre IH]; [reflexivity|].
    simpl in *. apply andb_true_iff in H as [Hc Hp].
    rewrite forallb_app, IH by assumption. simpl. now rewrite Hc.
Qed.

Lemma rstrip_by_last (p : N -> bool) (s init : str) (c : N) :
  rstrip_by p s = init ++ [c] -> p c = false.
Proof.
  unfold rstrip_by. intros E.
  apply (f_equal (@rev N)) in E.
  rewrite rev_involutive, rev_app_distr in E. simpl in E.
  now apply drop_while_head in E.
Qed.

Lemma rstrip_by_id (p : N -> bool) (s : str) (d : N) :
  s <> [] -> p (last s d) = false -> rstrip_by p s = s.
Proof.
  intros Hs H. unfold rstrip_by.
  destruct (exists_last Hs) as (init & c & ->).
  rewrite last_last in H.
  rewrite rev_app_distr. simpl. rewrite H.
  simpl. now rewrite rev_involutive.
Qed.

Lemma Forall_drop_while (P : N -> Prop) (p : N -> bool) (s : str) :
  Forall P s -> Forall P (drop_while p s).
Proof.
  intros H. destruct (drop_while_suffix p s) as (pre & E & _).
  rewrite E in H. now apply Forall_app in H.
Qed.

Lemma Forall_rstrip_by (P : N -> Prop) (p : N -> bool) (s : str) :
  Forall P s -> Forall P (rstrip_by p s).
Proof.
  intros H. destruct (rstrip_by_prefix p s) as (suf & E & _).
  rewrite E in H. now apply Forall_app in H.
Qed.

Lemma Forall_strip (P : N -> Prop) (s : str) :
  Forall P s -> Forall P (strip s).
Proof.
  intros H. unfold strip, rstrip.
  rewrite !lstrip_drop_while.
  apply (Forall_rstrip_by P isspace). now apply Forall_drop_while.
Qed.

Lemma length_rstrip_by (p : N -> bool) (s : str) :
  (List.length (rstrip_by p s) <= List.length s)%nat.
Proof.
  destruct (rstrip_by_prefix p s) as (suf & E & _).
  rewrite E at 2. rewrite length_app. lia.
Qed.

Lemma rstrip_by_head (p : N -> bool) (s : str) (d : N) :
  rstrip_by p s <> [] -> hd d (rstrip_by p s) = hd d s.
Proof.
  intros H. destruct (rstrip_by_prefix p s) as (suf & E & _).
  rewrite E at 2. destruct (rstrip_by p s); [congruence|reflexivity].
Qed.

Lemma strip_rstrip_by (s : str) : strip s = rstrip_by isspace (drop_while isspace s).
Proof.
  unfold strip, rstrip, rstrip_by. now rewrite !lstrip_drop_while.
Qed.

(** A stripped string neither begins nor ends with whitespace. *)
Lemma strip_ends (s : str) :
  strip s <> [] ->
  isspace (hd 0 (strip s)) = false /\ isspace (last (strip s) 0) = false.
Proof.
  intros H. rewrite strip_rstrip_by in *. split.
  - rewrite rstrip_by_head by assumption.
    destruct (drop_while isspace s) as [|c rest] eqn:E.
    + exfalso. apply H. reflexivity.
    + simpl. now apply drop_while_head in E.
  - destruct (exists_last H) as (init & c & E). rewrite E, last_last.
    now apply rstrip_by_last in E.
Qed.

Lemma strip_id (s : str) :
  isspace (hd 0 s) = false -> isspace (last s 0) = false -> strip s = s.
Proof.
  intros Hh Hl. destruct s as [|c s]; [reflexivity|].
  rewrite strip_rstrip_by.
  rewrite (drop_while_id isspace (c :: s) 0) by (congruence || assumption).
  apply (rstrip_by_id isspace (c :: s) 0); [congruence|assumption].
Qed.

(** Stripping twice is stripping once. *)
Lemma strip_idempotent (s : str) : strip (strip s) = strip s.
Proof.
  destruct (strip s) as [|c rest] eqn:E; [reflexivity|].
  rewrite <- E.
  assert (H : strip s <> []) by (rewrite E; discriminate).
  destruct (strip_ends s H). now apply strip_id.
Qed.

(** ** File names *)

Lemma Forall_firstn' (P : N -> Prop) (n : nat) (s : str) :
  Forall P s -> Forall P (firstn n s).
Proof.
  intros H. rewrite <- (firstn_skipn n s) in H. now apply Forall_app in H.
Qed.

Lemma firstn_head (n : nat) (s : str) (d : N) :
  firstn n s <> [] -> hd d (firstn n s) = hd d s.
Proof.
  destruct n; [simpl; congruence|]. destruct s; reflexivity.
Qed.

Lemma sanitize_replacements (value : str) :
  Forall filename_char
    (replace_char 0 (lit "_") (sub_class forbidden_in_filename (lit "_") value)).
Proof.
  unfold sub_class.
  induction value as [|c value IH]; [constructor|].
  cbn [flat_map]. rewrite replace_char_app. apply Forall_app. split; [|exact IH].
  destruct (forbidden_in_filename c) eqn:Hc.
  - repeat constructor; discriminate.
  - unfold replace_char. cbn [flat_map]. rewrite app_nil_r.
    destruct (N.eqb_spec c 0) as [->|H0].
    + repeat constructor; discriminate.
    + repeat constructor; assumption.
Qed.

(** The result of [_sanitize_filename] is the fallback, or a non-empty
    name of at most 120 characters without any forbidden character or NUL,
    which does not begin with whitespace and does not end with a dot or a
    space. *)
Theorem sanitize_filename_shape (value fallback : str) :
  let r := _sanitize_filename value fallback in
  r = fallback
  \/ (r <> []
      /\ Forall filename_char r
      /\ (List.length r <= 120)%nat
      /\ isspace (hd 0 r) = false
      /\ char_in (lit ". ") (last r 0) = false).
Proof.
  unfold _sanitize_filename.
  set (c2 := replace_char 0 (lit "_") (sub_class forbidden_in_filename (lit "_") value)).
  set (c3 := strip c2).
  set (c4 := rstrip_chars (lit ". ") c3).
  set (c5 := if Nat.ltb 120 (List.length c4)
             then rstrip_chars (lit ". ") (firstn 120 c4) else c4).
  cbv zeta. destruct (truthy c5) eqn:Ht; [right|left; reflexivity].
  apply truthy_true in Ht.
  assert (H3 : Forall filename_char c3)
    by (apply Forall_strip, sanitize_replacements).
  assert (H4 : Forall filename_char c4) by now apply Forall_rstrip_by.
  assert (Hpre : exists suf, c3 = c5 ++ suf).
  { unfold c5. destruct (Nat.ltb 120 (List.length c4)).
    - destruct (rstrip_by_prefix (char_in (lit ". ")) (firstn 120 c4)) as (s1 & E1 & _).
      destruct (rstrip_by_prefix (char_in (lit ". ")) c3) as (s2 & E2 & _).
      fold (rstrip_chars (lit ". ") (firstn 120 c4)) in E1.
      fold (rstrip_chars (lit ". ") c3) in E2. fold c4 in E2.
      exists (s1 ++ skipn 120 c4 ++ s2).
      rewrite app_assoc, app_assoc, <- E1, firstn_skipn. exact E2.
    - destruct (rstrip_by_prefix (char_in (lit ". ")) c3) as (s2 & E2 & _).
      now exists s2. }
  destruct Hpre as (suf & Hpre).
  split; [exact Ht|]. split; [|split; [|split]].
  - rewrite Hpre in H3. now apply Forall_app in H3.
  - unfold c5. destruct (Nat.ltb 120 (List.length c4)) eqn:Hlen.
    + etransitivity; [apply length_rstrip_by|apply firstn_le_length].
    + apply PeanoNat.Nat.ltb_ge in Hlen. exact Hlen.
  - assert (Hc3 : c3 <> []) by (rewrite Hpre; destruct c5; [congruence|discriminate]).
    replace (hd 0 c5) with (hd 0 c3)
      by (rewrite Hpre; destruct c5; [congruence|reflexivity]).
    now apply strip_ends.
  - destruct (exists_last Ht) as (init & c & E). rewrite E, last_last.
    unfold c5 in E. destruct (Nat.ltb 120 (List.length c4));
      now apply rstrip_by_last in E.
Qed.

(** A name that needs no cleaning is returned as it is. *)
Theorem sanitize_filename_clean (value fallback : str) :
  value <> [] ->
  Forall filename_char value ->
  (List.length value <= 120)%nat ->
  isspace (hd 0 value) = false ->
  isspace (last value 0) = false ->
  last value 0 <> 46 ->
  _sanitize_filename value fallback = value.
Proof.
  intros Hne Hchars Hlen Hhd Hws Hdot.
  unfold _sanitize_filename.
  assert (E1 : sub_class forbidden_in_filename (lit "_") value = value).
  { clear -Hchars. unfold sub_class.
    induction Hchars as [|c s [Hc _] _ IH]; [reflexivity|].
    cbn [flat_map]. now rewrite Hc, IH. }
  assert (E2 : replace_char 0 (lit "_") value = value).
  { clear -Hchars. unfold replace_char.
    induction Hchars as [|c s [_ Hc] _ IH]; [reflexivity|].
    cbn [flat_map]. apply N.eqb_neq in Hc. now rewrite Hc, IH. }
  rewrite E1, E2, (strip_id value Hhd Hws).
  assert (E4 : rstrip_chars (lit ". ") value = value).
  { apply (rstrip_by_id _ value 0); [assumption|].
    unfold char_in. change (lit ". ") with [46; 32]. cbn [existsb].
    apply N.eqb_neq in Hdot. rewrite Hdot.
    destruct (N.eqb_spec (last value 0) 32) as [E|_]; [|reflexivity].
    rewrite E in Hws. discriminate Hws. }
  cbv zeta. rewrite E4.
  apply PeanoNat.Nat.ltb_ge in Hlen. rewrite Hlen.
  destruct value; [congruence|reflexivity].
Qed.

Lemma sanitize_filename_clean_witness :
  _sanitize_filename (lit "My Story, part 1") (lit "Wattpad Story 1")
  = lit "My Story, part 1".
Proof.
  apply sanitize_filename_clean.
  - discriminate.
  - repeat first [apply Forall_nil
                 |apply Forall_cons; [split; [reflexivity|discriminate]|]].
  - simpl. lia.
  - reflexivity.
  - reflexivity.
  - discriminate.
Defined.

(** The default output name always has a non-empty base in front of its
    extension: when the title cleans to nothing the fallback takes over,
    and otherwise the base holds no forbidden character. *)
Theorem default_output_name_base (story_title : str) (parts : list part) :
  exists base,
    default_output_name story_title parts = base ++ lit ".pdf"
    /\ base <> []
    /\ (Forall filename_char base
        \/ exists id, base = lit "Wattpad Story" ++ id).
Proof.
  unfold default_output_name. cbv zeta.
  set (fallback := match parts with
                   | p :: _ => lit "Wattpad Story " ++ part_id p
                   | [] => lit "Wattpad Story"
                   end).
  exists (_sanitize_filename story_title fallback).
  split; [reflexivity|].
  assert (Hf : fallback <> []) by (unfold fallback; destruct parts; discriminate).
  assert (Hid : exists id, fallback = lit "Wattpad Story" ++ id).
  { unfold fallback. destruct parts as [|p parts].
    - exists []. reflexivity.
    - exists (32 :: part_id p). reflexivity. }
  destruct (sanitize_filename_shape story_title fallback) as [E|(Hne & Hchars & _)];
    cbv zeta in *.
  - rewrite E. split; [exact Hf|right; exact Hid].
  - split; [exact Hne|left; exact Hchars].
Qed.

(** ** Prefixes and suffixes *)

Lemma startswith_spec (s p : str) :
  startswith s p = true <-> exists r, s = p ++ r.
Proof.
  revert s. induction p as [|x p IH]; intros s; simpl.
  - split; [exists s; reflexivity|destruct s; reflexivity].
  - destruct s as [|y s].
    + split; [discriminate|intros [r E]; discriminate E].
    + cbn [startswith]. rewrite andb_true_iff, N.eqb_eq, IH. split.
      * intros [-> [r ->]]. now exists r.
      * intros [r E]. injection E as -> ->. split; [reflexivity|now exists r].
Qed.

Lemma endswith_spec (s suffix : str) :
  endswith s suffix = true <-> exists t, s = t ++ suffix.
Proof.
  unfold endswith. rewrite startswith_spec. split.
  - intros [r E]. exists (rev r).
    rewrite <- (rev_involutive s), E, rev_app_distr. now rewrite rev_involutive.
  - intros [t ->]. exists (rev t). now rewrite rev_app_distr.
Qed.

(** A value that ends with the suffix loses exactly that suffix, and the
    result never begins or ends with whitespace. *)
Theorem strip_wattpad_suffix_spec (value : str) :
  let r := _strip_wattpad_suffix value in
  (r = [] \/ (isspace (hd 0 r) = false /\ isspace (last r 0) = false))
  /\ strip r = r
  /\ (forall t, value = t ++ lit " - Wattpad" -> r = strip t).
Proof.
  cbv zeta.
  assert (Hs : exists v, _strip_wattpad_suffix value = strip v).
  { unfold _strip_wattpad_suffix. cbv zeta.
    destruct (endswith value (lit " - Wattpad")); eexists; reflexivity. }
  destruct Hs as [v Hv]. rewrite Hv.
  split; [|split].
  - destruct (strip v) eqn:E; [left; reflexivity|right].
    rewrite <- E. apply strip_ends. rewrite E. discriminate.
  - apply strip_idempotent.
  - intros t ->. rewrite <- Hv. unfold _strip_wattpad_suffix. cbv zeta.
    rewrite (proj2 (endswith_spec _ _)) by now exists t.
    rewrite length_app, PeanoNat.Nat.add_sub.
    rewrite firstn_app, firstn_all, PeanoNat.Nat.sub_diag. simpl.
    now rewrite app_nil_r.
Qed.

Lemma strip_wattpad_suffix_spec_witness :
  _strip_wattpad_suffix (lit "  My Story - Wattpad - Wattpad") = lit "My Story - Wattpad".
Proof.
  refine (eq_trans
            (proj2 (proj2 (strip_wattpad_suffix_spec
                             (lit "  My Story - Wattpad - Wattpad")))
               (lit "  My Story - Wattpad") eq_refl) _).
  reflexivity.
Defined.

(** ** Splitting *)

Lemma split_nonempty (sep : N) (s : str) : split sep s <> [].
Proof.
  destruct s as [|c s]; simpl; [discriminate|].
  destruct (c =? sep); [discriminate|].
  destruct (split sep s); discriminate.
Qed.

(** No piece of a split holds the separator. *)
Lemma split_no_sep (sep : N) (s : str) :
  Forall (fun piece => ~ In sep piece) (split sep s).
Proof.
  induction s as [|c s IH]; simpl.
  - constructor; [intros []|constructor].
  - destruct (N.eqb_spec c sep) as [->|Hc].
    + constructor; [intros []|exact IH].
    + destruct (split sep s) as [|h t]; [constructor; [|constructor]|].
      * intros [E|[]]. congruence.
      * inversion IH as [|? ? Hh Ht]; subst.
        constructor; [|exact Ht]. intros [E|Hin]; [congruence|now apply Hh].
Qed.

(** The first piece of a split is the string up to its first separator. *)
Lemma split_head_prefix (sep : N) (s : str) :
  exists rest,
    s = hd [] (split sep s) ++ rest
    /\ (rest = [] \/ exists tail, rest = sep :: tail).
Proof.
  induction s as [|c s (rest & IH & Hrest)]; simpl.
  - exists []. auto.
  - destruct (N.eqb_spec c sep) as [->|Hc].
    + exists (sep :: s). split; [reflexivity|right; now exists s].
    + destruct (split sep s) as [|h t] eqn:E.
      * now destruct (split_nonempty sep s).
      * simpl in *. exists rest. split; [now rewrite IH at 1|exact Hrest].
Qed.

Lemma split_head_partition (sep : N) (s : str) :
  hd [] (split sep s) = fst (partition sep s).
Proof.
  induction s as [|c s IH]; [reflexivity|].
  simpl. destruct (c =? sep); [reflexivity|].
  destruct (partition sep s) as [b a] eqn:Ep. simpl in *.
  destruct (split sep s) as [|h t] eqn:E.
  - now destruct (split_nonempty sep s).
  - simpl in *. now rewrite IH.
Qed.

Lemma find_rev_last {A : Type} (f : A -> bool) (l : list A) (x : A) :
  find f (rev l) = Some x ->
  exists pre post,
    l = pre ++ x :: post /\ f x = true
    /\ forallb (fun y => negb (f y)) post = true.
Proof.
  induction l as [|y l IH] using rev_ind; [discriminate|].
  rewrite rev_unit. simpl. destruct (f y) eqn:Hy.
  - intros E. injection E as ->. exists l, []. auto.
  - intros E. destruct (IH E) as (pre & post & -> & Hx & Hpost).
    exists pre, (post ++ [y]). rewrite <- app_assoc. split; [reflexivity|].
    split; [exact Hx|]. rewrite forallb_app, Hpost. simpl. now rewrite Hy.
Qed.

Section StoryId.

Variable is_digit : N -> bool.

(** The identifier is cut from the last non-empty segment of the URL that
    begins with a digit: it is that segment up to its first hyphen (the
    whole segment when it has none), so it holds neither a hyphen nor a
    slash and what follows it in the segment is nothing or begins with a
    hyphen; it begins with the digit when the hyphen is no digit. *)
Theorem extract_story_id_result (url id : str) :
  extract_story_id is_digit url = inr id ->
  exists pre fragment post rest,
    filter truthy (split 47 url) = pre ++ fragment :: post
    /\ starts_with_digit is_digit fragment = true
    /\ forallb (fun p => negb (starts_with_digit is_digit p)) post = true
    /\ fragment = id ++ rest
    /\ (rest = [] \/ exists tail, rest = 45 :: tail)
    /\ id = fst (partition 45 fragment)
    /\ ~ In 45 id /\ ~ In 47 id
    /\ (is_digit 45 = false -> starts_with_digit is_digit id = true).
Proof.
  unfold extract_story_id. cbv zeta.
  destruct (find _ _) as [fragment|] eqn:E; [|discriminate].
  intros H. injection H as <-.
  destruct (find_rev_last _ _ _ E) as (pre & post & Hparts & Hdigit & Hpost).
  destruct (split_head_prefix 45 fragment) as (rest & Hrest & Hshape).
  exists pre, fragment, post, rest.
  split; [assumption|]. split; [assumption|]. split; [assumption|].
  split; [assumption|]. split; [assumption|].
  split; [apply split_head_partition|].
  split; [|split].
  - pose proof (split_no_sep 45 fragment) as Hno.
    destruct (split 45 fragment) as [|h t]; [intros []|].
    inversion Hno; subst. assumption.
  - assert (Hfrag : ~ In 47 fragment).
    { pose proof (split_no_sep 47 url) as Hno.
      rewrite Forall_forall in Hno. apply Hno.
      apply (proj1 (filter_In truthy fragment (split 47 url))).
      rewrite Hparts. apply in_or_app. right. left. reflexivity. }
    intros Hin. apply Hfrag. rewrite Hrest. apply in_or_app. now left.
  - intros H45. destruct fragment as [|c fragment]; [discriminate Hdigit|].
    simpl in Hdigit. simpl.
    destruct (N.eqb_spec c 45) as [->|Hc]; [congruence|].
    destruct (split 45 fragment); simpl; exact Hdigit.
Qed.

End StoryId.

Lemma extract_story_id_result_witness :
  exists pre fragment post rest,
    filter truthy (split 47 (lit "https://www.wattpad.com/story/123456-my-story/parts"))
    = pre ++ fragment :: post
    /\ starts_with_digit ascii_digit fragment = true
    /\ forallb (fun p => negb (starts_with_digit ascii_digit p)) post = true
    /\ fragment = lit "123456" ++ rest
    /\ (rest = [] \/ exists tail, rest = 45 :: tail)
    /\ lit "123456" = fst (partition 45 fragment)
    /\ ~ In 45 (lit "123456") /\ ~ In 47 (lit "123456")
    /\ (ascii_digit 45 = false -> starts_with_digit ascii_digit (lit "123456") = true).
Proof.
  apply (extract_story_id_result ascii_digit
           (lit "https://www.wattpad.com/story/123456-my-story/parts")).
  reflexivity.
Defined.

(** ** The run: results *)

Section RunResults.

Variable lower : str -> str.
Variable is_digit : N -> bool.
Variable urljoin : str -> str -> str.
Variable _clean_part_title : str -> str.
Variable http_get : str -> option str -> option response.
Variable parse_overview : str -> overview_page.
Variable parse_html : str -> list node.

(** The title of a page is never empty and never begins or ends with
    whitespace; the og:title wins whenever it leaves something after the
    suffix is removed. *)
Theorem page_title_result (page : overview_page) :
  (forall title,
      page_title page = Some title -> title <> [] /\ strip title = title)
  /\ (forall content,
        og_title page = Some content ->
        _strip_wattpad_suffix content <> [] ->
        page_title page = Some (_strip_wattpad_suffix content)).
Proof.
  split.
  - intros title H.
    assert (Hne : title <> []).
    { unfold page_title in H. cbv zeta in H.
      match type of H with
      | (if negb (truthy (or_empty ?t)) then _ else _) = _ =>
          destruct t as [[|c t']|]; simpl in H; try discriminate H
      end.
      injection H as <-. discriminate. }
    split; [exact Hne|].
    assert (Hsrc : exists v, title = _strip_wattpad_suffix v).
    { unfold page_title in H. cbv zeta in H.
      destruct (og_title page) as [c|]; destruct (heading_text page) as [h|];
        destruct (title_string page) as [s|]; simpl in H;
        repeat match type of H with
               | context [truthy ?x] => destruct (truthy x) eqn:?; simpl in H
               end;
        try discriminate H; injection H as <-; eexists; reflexivity. }
    destruct Hsrc as [v ->].
    apply (proj1 (proj2 (strip_wattpad_suffix_spec v))).
  - intros content Hog Hne. unfold page_title. cbv zeta. rewrite Hog.
    apply truthy_true in Hne.
    repeat (cbn [or_empty negb]; rewrite ?Hne). reflexivity.
Qed.

Lemma scrape_parts_result (url : str) (anchors : list (str * str)) :
  forall acc parts,
    scrape_parts is_digit urljoin _clean_part_title url anchors acc = inr parts ->
    exists new,
      parts = acc ++ new
      /\ Forall2 (part_of_anchor is_digit urljoin _clean_part_title url) anchors new.
Proof.
  induction anchors as [|[href text] anchors IH]; intros acc parts H.
  - simpl in H. injection H as <-. exists []. rewrite app_nil_r. split; constructor.
  - cbn [scrape_parts] in H.
    destruct (extract_story_id is_digit (urljoin url href)) as [e|id] eqn:E;
      [discriminate H|].
    destruct (IH _ _ H) as (new & -> & Hnew).
    eexists (_ :: new). rewrite <- app_assoc. split; [reflexivity|].
    constructor; [|exact Hnew]. repeat split. exact E.
Qed.

(** A successful scrape has made the one request for the story URL, and
    returns a non-empty stripped title and a non-empty list of parts, one
    per part link of the page and in the order of the links. *)
Theorem scrape_story_overview_result (url : str) (log log' : list event)
    (title : str) (parts : list part) :
  scrape_story_overview is_digit urljoin _clean_part_title http_get
    parse_overview url log
  = (log', inr (title, parts)) ->
  log' = log ++ [Request url None]
  /\ title <> [] /\ strip title = title
  /\ parts <> []
  /\ exists resp,
       http_get url None = Some resp
       /\ status_raises resp = false
       /\ page_title (parse_overview (resp_text resp)) = Some title
       /\ Forall2 (part_of_anchor is_digit urljoin _clean_part_title url)
            (part_anchors (parse_overview (resp_text resp))) parts.
Proof.
  unfold scrape_story_overview. rewrite bind_unfold. unfold session_get.
  destruct (http_get url None) as [resp|]; [|discriminate].
  destruct (status_raises resp) eqn:Hst; [discriminate|].
  destruct (page_title (parse_overview (resp_text resp))) as [t|] eqn:Ht;
    [|discriminate].
  destruct (scrape_parts _ _ _ _ _ _) as [e|[|p ps]] eqn:Hp; try discriminate.
  unfold ret. intros H. injection H as <- <- <-.
  destruct (proj1 (page_title_result _) _ Ht) as (Hne & Hstrip).
  destruct (scrape_parts_result _ _ _ _ Hp) as (new & Hnew & Hall).
  simpl in Hnew. subst new.
  repeat split; try assumption; try discriminate.
  exists resp. repeat split; assumption.
Qed.

(** Fetching a part makes exactly one request, for that part.  When the
    request is answered and the body can be read (the text of the JSON
    payload under a JSON content type, the response text otherwise), a
    body that is blank after stripping raises the [RuntimeError], and the
    blocks of a non-blank body are those of its top-level nodes, in order,
    each rendered under the left alignment. *)
Theorem fetch_part_blocks_result (id : str) (log : list event) :
  let r := fetch_part_blocks lower http_get parse_html id log in
  fst r = log ++ [Request storytext_url (Some id)]
  /\ (forall blocks,
        snd r = inr blocks ->
        exists resp body,
          http_get storytext_url (Some id) = Some resp
          /\ status_raises resp = false
          /\ (if contains (lit "json") (lower (content_type resp))
              then json_text resp = Some body else resp_text resp = body)
          /\ strip body <> []
          /\ blocks
             = flat_map
                 (fun child => _render_blocks_from_node lower child (lit "L"))
                 (parse_html body))
  /\ (forall resp body,
        http_get storytext_url (Some id) = Some resp ->
        status_raises resp = false ->
        (if contains (lit "json") (lower (content_type resp))
         then json_text resp = Some body else resp_text resp = body) ->
        (strip body = [] -> snd r = inl RuntimeError)
        /\ (strip body <> [] ->
            snd r
            = inr (flat_map
                     (fun child => _render_blocks_from_node lower child (lit "L"))
                     (parse_html body)))).
Proof.
  cbv zeta.
  assert (Hlog : fst (fetch_part_blocks lower http_get parse_html id log)
                 = log ++ [Request storytext_url (Some id)]).
  { unfold fetch_part_blocks. rewrite bind_unfold.
    pose proof (session_get_log http_get storytext_url (Some id) log) as H.
    destruct (session_get http_get storytext_url (Some id) log) as [l [e|resp]];
      cbn [fst] in H; subst l; [reflexivity|].
    rewrite bind_unfold.
    destruct (contains _ _); [destruct (json_text resp)|];
      unfold ret, raise; try destruct (negb _); reflexivity. }
  assert (Hok : forall resp body,
             http_get storytext_url (Some id) = Some resp ->
             status_raises resp = false ->
             (if contains (lit "json") (lower (content_type resp))
              then json_text resp = Some body else resp_text resp = body) ->
             snd (fetch_part_blocks lower http_get parse_html id log)
             = if truthy (strip body)
               then inr (flat_map
                           (fun child =>
                              _render_blocks_from_node lower child (lit "L"))
                           (parse_html body))
               else inl RuntimeError).
  { intros resp body Hget Hst Hbody.
    unfold fetch_part_blocks. rewrite bind_unfold. unfold session_get.
    rewrite Hget, Hst. rewrite bind_unfold.
    destruct (contains (lit "json") (lower (content_type resp))).
    - rewrite Hbody. unfold ret, raise.
      destruct (truthy (strip body)); cbn [negb snd]; [|reflexivity].
      now rewrite fold_left_extend.
    - rewrite Hbody. unfold ret, raise.
      destruct (truthy (strip body)); cbn [negb snd]; [|reflexivity].
      now rewrite fold_left_extend. }
  split; [exact Hlog|]. split.
  - intros blocks Hres.
    destruct (http_get storytext_url (Some id)) as [resp|] eqn:Hget.
    2:{ unfold fetch_part_blocks in Hres. rewrite bind_unfold in Hres.
        unfold session_get in Hres. rewrite Hget in Hres. discriminate Hres. }
    destruct (status_raises resp) eqn:Hst.
    { unfold fetch_part_blocks in Hres. rewrite bind_unfold in Hres.
      unfold session_get in Hres. rewrite Hget, Hst in Hres. discriminate Hres. }
    assert (Hbody : exists body,
               if contains (lit "json") (lower (content_type resp))
               then json_text resp = Some body else resp_text resp = body).
    { destruct (contains (lit "json") (lower (content_type resp))) eqn:Hj.
      - destruct (json_text resp) as [t|] eqn:Hjt; [now exists t|].
        unfold fetch_part_blocks in Hres. rewrite bind_unfold in Hres.
        unfold session_get in Hres. rewrite Hget, Hst in Hres.
        rewrite bind_unfold, Hj, Hjt in Hres. discriminate Hres.
      - now exists (resp_text resp). }
    destruct Hbody as [body Hbody].
    rewrite (Hok resp body eq_refl Hst Hbody) in Hres.
    destruct (truthy (strip body)) eqn:Ht; [|discriminate Hres].
    injection Hres as <-. exists resp, body.
    apply truthy_true in Ht. auto.
  - intros resp body Hget Hst Hbody.
    rewrite (Hok resp body Hget Hst Hbody). split.
    + intros ->. reflexivity.
    + intros H. apply truthy_true in H. now rewrite H.
Qed.

(** What a fetch returns does not depend on the requests made before. *)
Lemma fetch_part_blocks_outcome (id : str) (log : list event) :
  snd (fetch_part_blocks lower http_get parse_html id log)
  = fetch_outcome lower http_get parse_html id.
Proof.
  unfold fetch_outcome, fetch_part_blocks. rewrite !bind_unfold. unfold session_get.
  destruct (http_get storytext_url (Some id)) as [resp|]; [|reflexivity].
  destruct (status_raises resp); [reflexivity|].
  rewrite !bind_unfold.
  destruct (contains _ _); [destruct (json_text resp)|];
    unfold ret, raise; try destruct (negb _); reflexivity.
Qed.

Lemma fetch_chapters_result (parts : list part) : forall chapters log,
  let r := fetch_chapters lower _clean_part_title http_get parse_html
             parts chapters log in
  (exists new,
      snd r = inr (chapters ++ new)
      /\ fst r = log ++ map part_request parts
      /\ Forall2
           (fun p c =>
              chapter_title c = _clean_part_title (raw_chapter_title p)
              /\ fetch_outcome lower http_get parse_html (part_id p)
                 = inr (chapter_blocks c))
           parts new)
  \/ (exists before p after e,
        parts = before ++ p :: after
        /\ Forall
             (fun q => exists blocks,
                         fetch_outcome lower http_get parse_html (part_id q)
                         = inr blocks)
             before
        /\ fetch_outcome lower http_get parse_html (part_id p) = inl e
        /\ snd r = inl e
        /\ fst r = log ++ map part_request (before ++ [p])).
Proof.
  induction parts as [|p parts IH]; intros chapters log; cbv zeta.
  - left. exists []. simpl. rewrite !app_nil_r. repeat split. constructor.
  - cbn [fetch_chapters]. rewrite bind_unfold.
    pose proof (fetch_part_blocks_result (part_id p) log) as (Hlog & _).
    pose proof (fetch_part_blocks_outcome (part_id p) log) as Hout.
    destruct (fetch_part_blocks lower http_get parse_html (part_id p) log)
      as [log1 [e|blocks]]; cbn [fst snd] in *; subst log1.
    + right. exists [], p, parts, e. simpl. repeat split; auto.
    + specialize (IH (chapters
                        ++ [mk_chapter (_clean_part_title
                                          (if truthy (part_title p) then part_title p
                                           else lit "Part " ++ part_id p))
                              blocks])
                     (log ++ [Request storytext_url (Some (part_id p))])).
      cbv zeta in IH.
      destruct IH as [(new & Hres & Hfst & Hall)
                     |(before & q & after & e & Hparts & Hbefore & Hq & Hres & Hfst)].
      * left. eexists (_ :: new). rewrite Hres, Hfst, <- !app_assoc.
        split; [reflexivity|]. split; [reflexivity|].
        constructor; [|exact Hall]. split; [reflexivity|]. now rewrite <- Hout.
      * right. exists (p :: before), q, after, e. rewrite Hres, Hfst, Hparts.
        split; [reflexivity|]. split.
        { constructor; [|exact Hbefore]. exists blocks. now rewrite <- Hout. }
        split; [exact Hq|]. split; [reflexivity|].
        simpl. now rewrite <- app_assoc.
Qed.

(** The requests of a run: first the story URL, then the parts in the
    order of the table of contents, one request per part.  A run that ends
    well has requested every part, and its chapters are those of the
    parts, in order, each with the cleaned title of its part and the blocks
    its fetch returned.  A run that fails on a part has requested the parts
    up to that one, whose fetches all succeeded, then that part, and no
    part after it; its error is the error of that fetch. *)
Theorem main_requests (url : str) :
  let r := main lower is_digit urljoin _clean_part_title http_get
             parse_overview parse_html url [] in
  (exists e,
      scrape_story_overview is_digit urljoin _clean_part_title http_get
        parse_overview url []
      = ([Request url None], inl e)
      /\ r = ([Request url None], inl e))
  \/ exists title parts,
       scrape_story_overview is_digit urljoin _clean_part_title http_get
         parse_overview url []
       = ([Request url None], inr (title, parts))
       /\ ((exists chapters,
               r = (Request url None :: map part_request parts,
                    inr (title, chapters))
               /\ Forall2
                    (fun p c =>
                       chapter_title c = _clean_part_title (raw_chapter_title p)
                       /\ fetch_outcome lower http_get parse_html (part_id p)
                          = inr (chapter_blocks c))
                    parts chapters)
           \/ (exists before p after e,
                 parts = before ++ p :: after
                 /\ Forall
                      (fun q => exists blocks,
                                  fetch_outcome lower http_get parse_html (part_id q)
                                  = inr blocks)
                      before
                 /\ fetch_outcome lower http_get parse_html (part_id p) = inl e
                 /\ r = (Request url None :: map part_request (before ++ [p]),
                         inl e))).
Proof.
  cbv zeta. unfold main. rewrite bind_unfold.
  pose proof (scrape_log is_digit urljoin _clean_part_title http_get
                parse_overview url []) as Hlog.
  destruct (scrape_story_overview is_digit urljoin _clean_part_title http_get
              parse_overview url []) as [log1 [e|[title parts]]];
    cbn [fst] in Hlog; subst log1.
  - left. exists e. split; reflexivity.
  - right. exists title, parts. split; [reflexivity|]. rewrite bind_unfold.
    pose proof (fetch_chapters_result parts [] ([] ++ [Request url None])) as H.
    cbv zeta in H.
    destruct (fetch_chapters lower _clean_part_title http_get parse_html parts []
                ([] ++ [Request url None])) as [log2 res].
    cbn [fst snd] in H.
    destruct H as [(new & -> & -> & Hall)
                  |(before & p & after & e & Hparts & Hbefore & Hp & -> & ->)].
    + left. exists new. split; [reflexivity|exact Hall].
    + right. exists before, p, after, e. repeat split; assumption.
Qed.

End RunResults.

Lemma page_title_result_witness :
  page_title (mk_overview (Some (lit " My Story - Wattpad")) (Some (lit "Heading")) None [])
  = Some (lit "My Story").
Proof.
  refine (eq_trans
            (proj2 (page_title_result
                      (mk_overview (Some (lit " My Story - Wattpad"))
                         (Some (lit "Heading")) None []))
               (lit " My Story - Wattpad") eq_refl _) _).
  - vm_compute. discriminate.
  - reflexivity.
Defined.

Lemma scrape_story_overview_result_witness :
  [Request sample_url None] = [] ++ [Request sample_url None]
  /\ lit "My Story" <> [] /\ strip (lit "My Story") = lit "My Story"
  /\ [mk_part (lit "123456") (lit "Chapter One")
        (lit "https://www.wattpad.com/123456-chapter-one")] <> []
  /\ exists resp,
       sample_http_get sample_url None = Some resp
       /\ status_raises resp = false
       /\ page_title (sample_parse_overview (resp_text resp)) = Some (lit "My Story")
       /\ Forall2
            (part_of_anchor ascii_digit sample_urljoin (fun title => title) sample_url)
            (part_anchors (sample_parse_overview (resp_text resp)))
            [mk_part (lit "123456") (lit "Chapter One")
               (lit "https://www.wattpad.com/123456-chapter-one")].
Proof.
  apply (scrape_story_overview_result ascii_digit sample_urljoin
           (fun title => title) sample_http_get sample_parse_overview
           sample_url []).
  reflexivity.
Defined.

Lemma fetch_part_blocks_result_witness :
  snd (fetch_part_blocks ascii_lower
         (fun _ _ => Some (mk_response false (lit "text/html") (lit "  ") None))
         sample_parse_html (lit "123456") [])
  = inl RuntimeError
  /\ snd (fetch_part_blocks ascii_lower
            (fun _ _ => Some (mk_response false (lit "Application/JSON")
                                (lit "{}") (Some (lit "<p>Hi</p>"))))
            sample_parse_html (lit "123456") [])
     = inr [lit "<p>Hi</p>"].
Proof.
  split.
  - apply (proj2 (proj2 (fetch_part_blocks_result ascii_lower
                           (fun _ _ => Some (mk_response false (lit "text/html")
                                               (lit "  ") None))
                           sample_parse_html (lit "123456") []))
             (mk_response false (lit "text/html") (lit "  ") None) (lit "  ")).
    + reflexivity.
    + reflexivity.
    + reflexivity.
    + reflexivity.
  - refine (eq_trans
              (proj2 (proj2 (proj2 (fetch_part_blocks_result ascii_lower
                                      (fun _ _ =>
                                         Some (mk_response false
                                                 (lit "Application/JSON")
                                                 (lit "{}")
                                                 (Some (lit "<p>Hi</p>"))))
                                      sample_parse_html (lit "123456") []))
                        (mk_response false (lit "Application/JSON") (lit "{}")
                           (Some (lit "<p>Hi</p>")))
                        (lit "<p>Hi</p>") eq_refl eq_refl eq_refl) _) _).
    + vm_compute. discriminate.
    + reflexivity.
Defined.

(** ** The document *)

Lemma fold_left_snoc {A : Type} (l : list A) : forall acc,
  fold_left (fun parts x => parts ++ [x]) l acc = acc ++ l.
Proof.
  induction l as [|x l IH]; intros acc; simpl.
  - now rewrite app_nil_r.
  - now rewrite IH, <- app_assoc.
Qed.

Lemma html_parts_acc (chapters : list chapter) : forall acc,
  fold_left
    (fun html_parts chapter =>
       let title := chapter_title chapter in
       let blocks := chapter_blocks chapter in
       let html_parts :=
         if truthy title
         then html_parts ++ [centered_heading (lit "h2") title]
         else html_parts in
       let html_parts :=
         fold_left (fun html_parts block_html => html_parts ++ [block_html])
           blocks html_parts in
       html_parts ++ [lit "<br/>"])
    chapters acc
  = acc ++ flat_map chapter_fragments chapters.
Proof.
  induction chapters as [|c chapters IH]; intros acc; cbn [fold_left flat_map].
  - now rewrite app_nil_r.
  - rewrite IH. cbv zeta. rewrite fold_left_snoc. unfold chapter_fragments.
    destruct (truthy (chapter_title c)); cbn [app]; now rewrite <- !app_assoc.
Qed.

(** The document is the title heading followed, chapter by chapter in the
    order given, by the chapter heading (left out for an empty title), the
    blocks of the chapter in their order and one line break.  So every
    block of every chapter is in the document, and a document with
    chapters ends with the line break. *)
Theorem html_parts_structure (story_title : str) (chapters : list chapter) :
  html_parts story_title chapters
  = centered_heading (lit "h1") story_title :: flat_map chapter_fragments chapters
  /\ List.length (html_parts story_title chapters)
     = S (list_sum
            (map (fun c =>
                    ((if truthy (chapter_title c) then 1 else 0)
                     + List.length (chapter_blocks c) + 1)%nat)
                 chapters))
  /\ (forall c block,
        In c chapters -> In block (chapter_blocks c) ->
        In block (html_parts story_title chapters))
  /\ (chapters <> [] -> last (html_parts story_title chapters) [] = lit "<br/>").
Proof.
  assert (E : html_parts story_title chapters
              = centered_heading (lit "h1") story_title
                :: flat_map chapter_fragments chapters).
  { unfold html_parts. now rewrite html_parts_acc. }
  rewrite E. split; [reflexivity|]. split; [|split].
  - cbn [List.length]. f_equal. clear E.
    induction chapters as [|c chapters IH]; [reflexivity|].
    cbn [flat_map map list_sum]. rewrite length_app, IH.
    unfold chapter_fragments. rewrite !length_app.
    destruct (truthy (chapter_title c)); simpl; lia.
  - intros c block Hc Hb. right. apply in_flat_map. exists c. split; [exact Hc|].
    unfold chapter_fragments. apply in_or_app. right. apply in_or_app. now left.
  - intros Hne. destruct (exists_last Hne) as (init & c & ->).
    rewrite flat_map_app. cbn [flat_map]. rewrite app_nil_r.
    unfold chapter_fragments at 2. rewrite !app_assoc.
    change (?x :: ?a ++ [?y]) with ((x :: a) ++ [y]).
    now rewrite last_last.
Qed.

Lemma html_parts_structure_witness :
  last (html_parts (lit "T") [mk_chapter [] [lit "<p>a</p>"; lit "<hr/>"]]) []
  = lit "<br/>"
  /\ In (lit "<hr/>") (html_parts (lit "T") [mk_chapter [] [lit "<p>a</p>"; lit "<hr/>"]]).
Proof.
  split.
  - apply (proj2 (proj2 (proj2 (html_parts_structure (lit "T") _)))). discriminate.
  - apply (proj1 (proj2 (proj2 (html_parts_structure (lit "T") _)))
             (mk_chapter [] [lit "<p>a</p>"; lit "<hr/>"])).
    + left. reflexivity.
    + right. left. reflexivity.
Defined.

(** ** Escaping with quotes *)

Lemma replace_char_flat_map (c : N) (r : str) (f : N -> str) (s : str) :
  replace_char c r (flat_map f s) = flat_map (fun x => replace_char c r (f x)) s.
Proof.
  induction s as [|x s IH]; [reflexivity|].
  cbn [flat_map]. now rewrite replace_char_app, IH.
Qed.

(** With [quote=True] the five replacements amount to one pass, and the
    result holds no angle bracket and no quote of either kind. *)
Theorem html_escape_quote (s : str) :
  html_escape true s = flat_map escape_attr_cp s
  /\ Forall attr_safe (html_escape true s).
Proof.
  assert (E : html_escape true s = flat_map escape_attr_cp s).
  { unfold html_escape.
    change (replace_char 62 (lit "&gt;")
              (replace_char 60 (lit "&lt;") (replace_char 38 (lit "&amp;") s)))
      with (html_escape false s).
    rewrite html_escape_one_pass, !replace_char_flat_map.
    apply flat_map_ext. intros c. unfold escape_cp, escape_attr_cp.
    destruct (N.eqb_spec c 38) as [->|H38]; [reflexivity|].
    destruct (N.eqb_spec c 60) as [->|H60]; [reflexivity|].
    destruct (N.eqb_spec c 62) as [->|H62]; [reflexivity|].
    unfold replace_char. cbn [flat_map].
    destruct (N.eqb_spec c 34) as [->|H34]; [reflexivity|].
    cbn [app flat_map].
    destruct (N.eqb_spec c 39) as [->|H39]; reflexivity. }
  split; [exact E|]. rewrite E. clear E.
  induction s as [|c s IH]; cbn [flat_map]; [constructor|].
  apply Forall_app. split; [|exact IH].
  unfold escape_attr_cp.
  destruct (N.eqb_spec c 38); [repeat constructor; discriminate|].
  destruct (N.eqb_spec c 60); [repeat constructor; discriminate|].
  destruct (N.eqb_spec c 62); [repeat constructor; discriminate|].
  destruct (N.eqb_spec c 34); [repeat constructor; discriminate|].
  destruct (N.eqb_spec c 39); [repeat constructor; discriminate|].
  repeat constructor; assumption.
Qed.

(** ** The inline vocabulary *)

Lemma inline_markup_yi (r : str) :
  forallb is_yi r = true -> inline_markup r.
Proof.
  induction r as [|c r IH]; simpl; intros H; [constructor|].
  apply andb_true_iff in H as [Hc Hr].
  destruct (is_yi_plain _ Hc) as (? & ? & ?).
  apply (im_app [c] r); [now constructor|now apply IH].
Qed.

Lemma inline_markup_flush (run : str) :
  forallb is_yi run = true -> inline_markup (flush run).
Proof.
  intros H. destruct run as [|c run]; [constructor|].
  change (flush (c :: run)) with (wrap_with (c :: run) (WFace (lit "NotoSansYi"))).
  apply im_wrap; [exact I|now apply inline_markup_yi].
Qed.

Lemma inline_markup_yi_sub (t : str) : forall run,
  forallb is_yi run = true ->
  inline_markup (yi_sub run (flat_map escape_cp t)).
Proof.
  induction t as [|c t IH]; intros run Hrun.
  - simpl. now apply inline_markup_flush.
  - simpl flat_map. unfold escape_cp at 1.
    destruct (N.eqb_spec c 38) as [->|H38];
      [|destruct (N.eqb_spec c 60) as [->|H60];
        [|destruct (N.eqb_spec c 62) as [->|H62]]].
    + apply (im_app (flush run) (lit "&amp;" ++ yi_sub [] (flat_map escape_cp t)));
        [now apply inline_markup_flush|].
      apply im_app; [apply im_entity; simpl; auto|now apply IH].
    + apply (im_app (flush run) (lit "&lt;" ++ yi_sub [] (flat_map escape_cp t)));
        [now apply inline_markup_flush|].
      apply im_app; [apply im_entity; simpl; auto|now apply IH].
    + apply (im_app (flush run) (lit "&gt;" ++ yi_sub [] (flat_map escape_cp t)));
        [now apply inline_markup_flush|].
      apply im_app; [apply im_entity; simpl; auto|now apply IH].
    + simpl. destruct (is_yi c) eqn:Hc.
      * apply IH. rewrite forallb_app, Hrun. simpl. now rewrite Hc.
      * apply im_app; [now apply inline_markup_flush|].
        apply (im_app [c]); [now constructor|now apply IH].
Qed.

Lemma inline_markup_join (l : list str) :
  Forall inline_markup l -> inline_markup (join l).
Proof.
  induction 1 as [|s l Hs _ IH]; [constructor|].
  unfold join in *. simpl. now apply im_app.
Qed.

Lemma inline_markup_fold (ws : list wrapper) : forall s,
  Forall allowed_wrapper ws -> inline_markup s ->
  inline_markup (fold_left wrap_with ws s).
Proof.
  induction ws as [|w ws IH]; intros s Hws Hs; [exact Hs|].
  inversion Hws; subst. simpl. apply IH; [assumption|]. now apply im_wrap.
Qed.

Lemma Forall_when (P : wrapper -> Prop) (c : bool) (w : wrapper) :
  (c = true -> P w) -> Forall P (when c w).
Proof. destruct c; intros H; constructor; auto. Qed.

Lemma wrappers_allowed lower (name : str) (a : attrs) :
  Forall allowed_wrapper (wrappers lower name a).
Proof.
  unfold wrappers.
  repeat (apply Forall_app; split); apply Forall_when; intros H; simpl;
    unfold inline_tags; simpl; auto.
  unfold str_in in H. cbn [existsb] in H.
  rewrite !orb_true_iff, !str_eqb_eq in H.
  destruct H as [->|[->|H]]; [| |discriminate H]; simpl; auto 10.
Qed.

(** Whatever the tree, the inline renderer emits markup of the inline
    vocabulary, with every tag closed: plain characters, the three
    entities, br and hr, and pairs of b, i, u, sup, sub, a and font tags
    around such markup. *)
Theorem render_node_inline_markup lower (n : node) :
  inline_markup (_render_node lower n).
Proof.
  induction n as [t| |nm a ch IH] using node_forall_ind.
  - rewrite render_text_pipeline. now apply inline_markup_yi_sub.
  - apply im_nil.
  - cbn [_render_node].
    destruct (str_eqb (lower nm) (lit "br")); [apply im_br|].
    destruct (str_eqb (lower nm) (lit "hr")); [apply im_hr|].
    destruct (negb (truthy (join (map (_render_node lower) ch)))
              && negb (str_in (lower nm) [lit "img"])); [apply im_nil|].
    rewrite wrap_element_wrappers.
    apply inline_markup_fold; [apply wrappers_allowed|].
    apply inline_markup_join. now rewrite Forall_map.
Qed.

(** ** The block renderer: counting and shape *)

Lemma element_blocks_at_most_one lower (name : str) (ch : list node) (align_attr : str) :
  (List.length (element_blocks lower name ch align_attr) <= 1)%nat.
Proof.
  unfold element_blocks.
  repeat match goal with
         | |- context [if ?b then _ else _] => destruct b
         | |- context [match ?l with [] => _ | _ :: _ => _ end] => destruct l
         end; simpl; lia.
Qed.

(** A text leaf and an element other than a div give at most one block; a
    div gives the blocks of its children, as many as they are, and at most
    one block when its children give none. *)
Theorem blocks_count lower (n : node) (inherited : str) :
  match n with
  | Element nm a ch =>
      let child_blocks :=
        flat_map
          (fun c => _render_blocks_from_node lower c
                      (resolve_alignment lower a inherited)) ch in
      if str_eqb (lower nm) (lit "div") && nonempty child_blocks
      then List.length (_render_blocks_from_node lower n inherited)
           = List.length child_blocks
      else (List.length (_render_blocks_from_node lower n inherited) <= 1)%nat
  | _ => (List.length (_render_blocks_from_node lower n inherited) <= 1)%nat
  end.
Proof.
  destruct n as [t|nm a ch|].
  - cbn [_render_blocks_from_node].
    destruct (truthy _); simpl; lia.
  - cbv zeta. rewrite render_blocks_element. cbv zeta.
    destruct (str_eqb (lower nm) (lit "div") && nonempty _).
    + destruct (str_eqb _ (lit "L")); [reflexivity|apply length_map].
    + apply element_blocks_at_most_one.
  - simpl. lia.
Qed.

Lemma last_app_nonempty (a b : str) (d : N) : b <> [] -> last (a ++ b) d = last b d.
Proof.
  intros Hb. destruct (exists_last Hb) as (init & c & ->).
  now rewrite app_assoc, !last_last.
Qed.

Ltac tag_shape :=
  split;
  [reflexivity
  |rewrite ?app_assoc; rewrite last_app_nonempty by discriminate; reflexivity].

Lemma tag_shaped_div_wrap (node_align block : str) :
  tag_shaped (div_wrap node_align block).
Proof. unfold div_wrap. tag_shape. Qed.

Lemma element_blocks_tag_shaped lower (name : str) (ch : list node) (align_attr : str) :
  Forall tag_shaped (element_blocks lower name ch align_attr).
Proof.
  unfold element_blocks.
  repeat match goal with
         | |- context [if ?b then _ else _] => destruct b
         | |- context [match ?l with [] => _ | _ :: _ => _ end] => destruct l
         end;
    repeat constructor; try reflexivity;
    rewrite ?app_nil_r, ?app_assoc; rewrite last_app_nonempty by discriminate;
    reflexivity.
Qed.

(** Every block is one tag from its first to its last character: the
    block renderer never emits bare text or an empty string. *)
Theorem blocks_tag_shaped lower (n : node) :
  forall inherited, Forall tag_shaped (_render_blocks_from_node lower n inherited).
Proof.
  induction n as [t| |nm a ch IH] using node_forall_ind; intros inherited.
  - cbn [_render_blocks_from_node].
    destruct (truthy _); [|constructor].
    constructor; [|constructor]. tag_shape.
  - constructor.
  - rewrite render_blocks_element. cbv zeta.
    destruct (str_eqb (lower nm) (lit "div") && nonempty _).
    + destruct (str_eqb _ (lit "L")).
      * apply Forall_flat_map. eapply Forall_impl; [|exact IH].
        intros c Hc. apply Hc.
      * apply Forall_map. apply Forall_forall. intros b _.
        apply tag_shaped_div_wrap.
    + apply element_blocks_tag_shaped.
Qed.

(** ** Part titles *)

Lemma flush_spaces_short (run : str) :
  (List.length (flush_spaces run) <= 1)%nat.
Proof.
  unfold flush_spaces. destruct (Nat.leb 2 (List.length run)) eqn:E.
  - simpl. lia.
  - apply PeanoNat.Nat.leb_gt in E. lia.
Qed.

Lemma no_double_space_after (a : str) (c : N) (rest : str) :
  (List.length a <= 1)%nat -> isspace c = false ->
  no_double_space rest = true ->
  no_double_space (a ++ c :: rest) = true.
Proof.
  intros Ha Hc Hrest.
  assert (H : no_double_space (c :: rest) = true)
    by (simpl; now rewrite Hc, Hrest).
  destruct a as [|x [|y a]]; [exact H| |simpl in Ha; lia].
  change ([x] ++ c :: rest) with (x :: c :: rest).
  change (no_double_space (x :: c :: rest))
    with (negb (isspace x && isspace c) && no_double_space (c :: rest)).
  now rewrite Hc, andb_false_r, H.
Qed.

Lemma collapse_spaces_no_double (s : str) : forall run,
  no_double_space (collapse_spaces run s) = true.
Proof.
  induction s as [|c s IH]; intros run; cbn [collapse_spaces].
  - pose proof (flush_spaces_short run) as H.
    destruct (flush_spaces run) as [|x [|y l]]; [reflexivity| |simpl in H; lia].
    simpl. now rewrite andb_false_r.
  - destruct (isspace c) eqn:Hc; [apply IH|].
    apply no_double_space_after; [apply flush_spaces_short|exact Hc|apply IH].
Qed.

Lemma collapse_spaces_last (s : str) : forall run c,
  isspace c = false ->
  exists init, collapse_spaces run (s ++ [c]) = init ++ [c].
Proof.
  induction s as [|d s IH]; intros run c Hc.
  - simpl. rewrite Hc. exists (flush_spaces run). reflexivity.
  - cbn [app collapse_spaces]. destruct (isspace d).
    + now apply IH.
    + destruct (IH [] c Hc) as (init & ->).
      exists (flush_spaces run ++ d :: init). now rewrite <- app_assoc.
Qed.

(** Whatever the date pattern removes, a cleaned title holds no two
    whitespace characters side by side, does not begin with whitespace and
    does not end with whitespace, a comma, a colon or a hyphen. *)
Theorem clean_part_title_shape (date_pattern_sub : str -> str) (raw : str) :
  let r := clean_part_title date_pattern_sub raw in
  no_double_space r = true
  /\ (r = []
      \/ (isspace (hd 0 r) = false /\ trailing_punctuation (last r 0) = false)).
Proof.
  cbv zeta. unfold clean_part_title. cbv zeta.
  split; [apply collapse_spaces_no_double|].
  set (x := strip (date_pattern_sub raw)).
  set (u := rstrip_by trailing_punctuation x).
  destruct u as [|c0 u0] eqn:Eu; [left; reflexivity|right].
  assert (Hne : u <> []) by (rewrite Eu; discriminate).
  rewrite <- Eu.
  destruct (exists_last Hne) as (init & c & Hu).
  assert (Hc : trailing_punctuation c = false)
    by (unfold u in Hu; now apply rstrip_by_last in Hu).
  assert (Hcs : isspace c = false)
    by (unfold trailing_punctuation in Hc; now apply orb_false_iff in Hc).
  assert (Hx : x <> []).
  { destruct (rstrip_by_prefix trailing_punctuation x) as (suf & E & _).
    fold u in E. rewrite E. destruct u; [congruence|discriminate]. }
  assert (Hhd : isspace (hd 0 u) = false).
  { unfold u. rewrite rstrip_by_head by exact Hne.
    apply (strip_ends (date_pattern_sub raw) Hx). }
  assert (Hstrip : strip u = u).
  { apply strip_id; [exact Hhd|]. rewrite Hu, last_last. exact Hcs. }
  rewrite Hstrip. split.
  - rewrite Eu in *. simpl in Hhd. cbn [collapse_spaces]. rewrite Hhd.
    unfold flush_spaces. simpl. exact Hhd.
  - rewrite Hu. destruct (collapse_spaces_last init [] c Hcs) as (init' & ->).
    now rewrite last_last.
Qed.

(** ** Font registration *)

Lemma str_in_In (x : str) (l : list str) : str_in x l = true <-> In x l.
Proof.
  unfold str_in. rewrite existsb_exists. split.
  - intros (y & Hy & E). apply str_eqb_eq in E. now subst.
  - intros H. exists x. split; [exact H|apply str_eqb_refl].
Qed.

Lemma set_add_In (x y : str) (s : list str) :
  In y (set_add x s) <-> y = x \/ In y s.
Proof.
  unfold set_add. destruct (str_in x s) eqn:E.
  - apply str_in_In in E. split; [auto|intros [->|H]; assumption].
  - rewrite in_app_iff. simpl. split; intros [H|H]; auto.
    + destruct H as [H|[]]; auto.
Qed.

Lemma key_eqb_eq (k1 k2 : str * str) : key_eqb k1 k2 = true <-> k1 = k2.
Proof.
  destruct k1 as [a b], k2 as [c d]. unfold key_eqb. simpl.
  rewrite andb_true_iff, !str_eqb_eq. split; [intros [-> ->]|intros E; inversion E]; auto.
Qed.

Lemma key_seen (k : str * str) (l : list (str * str)) :
  existsb (key_eqb k) l = true <-> In k l.
Proof.
  rewrite existsb_exists. split.
  - intros (y & Hy & E). apply key_eqb_eq in E. now subst.
  - intros H. exists k. split; [exact H|now apply key_eqb_eq].
Qed.

Lemma styles_of_registered_add (f g s : str) (d : list (str * list str)) :
  styles_of f (registered_add g s d)
  = if str_eqb f g then set_add s (styles_of g d) else styles_of f d.
Proof.
  induction d as [|[f' styles] d IH]; cbn [registered_add styles_of].
  - destruct (str_eqb f g); reflexivity.
  - destruct (str_eqb g f') eqn:Eg; cbn [styles_of].
    + apply str_eqb_eq in Eg. subst f'.
      destruct (str_eqb f g); reflexivity.
    + rewrite IH. destruct (str_eqb f f') eqn:Ef; [|reflexivity].
      apply str_eqb_eq in Ef. subst f'.
      destruct (str_eqb f g) eqn:Efg; [|reflexivity].
      apply str_eqb_eq in Efg. subst g. rewrite str_eqb_refl in Eg. discriminate.
Qed.

Lemma registered_add_keys (g s : str) (d : list (str * list str)) :
  map fst (registered_add g s d)
  = if str_in g (map fst d) then map fst d else map fst d ++ [g].
Proof.
  induction d as [|[f' styles] d IH]; [reflexivity|].
  cbn [registered_add map fst str_in existsb]. unfold str_in in *.
  destruct (str_eqb g f') eqn:Eg; [reflexivity|].
  cbn [map fst orb]. rewrite IH.
  destruct (existsb (str_eqb g) (map fst d)); reflexivity.
Qed.

Lemma dict_get_setdefault (d : list (str * str)) (k v k' : str) :
  dict_get d k' <> None -> dict_get (dict_setdefault d k v) k' <> None.
Proof.
  induction d as [|[k0 v0] d IH]; cbn [dict_setdefault dict_get]; [congruence|].
  destruct (str_eqb k k0); [trivial|].
  cbn [dict_get]. destruct (str_eqb k' k0); [congruence|exact IH].
Qed.

Lemma dict_get_setdefault_key (d : list (str * str)) (k v : str) :
  dict_get (dict_setdefault d k v) k <> None.
Proof.
  induction d as [|[k0 v0] d IH]; cbn [dict_setdefault dict_get].
  - rewrite str_eqb_refl. discriminate.
  - destruct (str_eqb k k0) eqn:E; cbn [dict_get]; rewrite E; [discriminate|exact IH].
Qed.

Lemma suffix_style_range (lowered_suffix : str) (style : str) :
  suffix_style lowered_suffix STYLE_SUFFIX_MAP = Some style -> In style font_styles.
Proof.
  unfold STYLE_SUFFIX_MAP, font_styles. cbn [suffix_style].
  repeat match goal with
         | |- context [if ?b then _ else _] => destruct b
         end; intros E; inversion E; subst; simpl; auto.
Qed.

(** The style of a file is one of the four styles.  A suffix that ends
    with bolditalic or boldoblique is bold italic, the longer keywords
    being tried first; a stem without a hyphen, or with a suffix that ends
    with no keyword, is a family of its own in the regular style. *)
Theorem font_key_style lower (stem : str) :
  In (snd (font_key lower stem)) font_styles
  /\ (contains (lit "-") stem = true ->
      endswith (lower (snd (partition 45 stem))) (lit "bolditalic") = true
      \/ endswith (lower (snd (partition 45 stem))) (lit "boldoblique") = true ->
      font_key lower stem = (fst (partition 45 stem), lit "BI"))
  /\ (contains (lit "-") stem = false
      \/ suffix_style (lower (snd (partition 45 stem))) STYLE_SUFFIX_MAP = None ->
      font_key lower stem = (stem, [])).
Proof.
  unfold font_key. destruct (partition 45 stem) as [base suffix] eqn:Ep.
  cbn [fst snd]. split; [|split].
  - destruct (contains (lit "-") stem); [|simpl; auto].
    destruct (suffix_style _ _) eqn:E; [|simpl; auto].
    now apply suffix_style_range in E.
  - intros -> H. unfold STYLE_SUFFIX_MAP. cbn [suffix_style].
    destruct (endswith (lower suffix) (lit "boldoblique")); [reflexivity|].
    destruct H as [H|H]; [now rewrite H|discriminate H].
  - intros [->|H]; [reflexivity|]. rewrite H.
    destruct (contains (lit "-") stem); reflexivity.
Qed.

Lemma font_key_style_witness :
  font_key ascii_lower (lit "DejaVuSans-BoldOblique") = (lit "DejaVuSans", lit "BI")
  /\ font_key ascii_lower (lit "Noto-Sans") = (lit "Noto-Sans", []).
Proof.
  split.
  - refine (eq_trans
              (proj1 (proj2 (font_key_style ascii_lower (lit "DejaVuSans-BoldOblique")))
                 eq_refl (or_intror eq_refl)) _).
    reflexivity.
  - apply (proj2 (proj2 (font_key_style ascii_lower (lit "Noto-Sans")))).
    right. reflexivity.
Defined.

Lemma NoDup_snoc {A : Type} (l : list A) (x : A) :
  NoDup l -> ~ In x l -> NoDup (l ++ [x]).
Proof.
  intros Hl Hx. apply NoDup_rev in Hl.
  rewrite <- (rev_involutive (l ++ [x])). apply NoDup_rev.
  rewrite rev_unit. constructor; [|exact Hl].
  intros H. apply Hx. now apply in_rev.
Qed.

Lemma fonts_invariant_init : fonts_invariant (mk_font_state [] [] [] []).
Proof.
  unfold fonts_invariant. simpl.
  repeat split; try constructor; try tauto; try (intros [s []]).
Qed.

Lemma fonts_invariant_step lower (st : font_state) (f : font_file) :
  fonts_invariant st -> fonts_invariant (register_font lower st f).
Proof.
  intros (Hkeys & Hstyles & Hreg & Hcalls & Hseen & Hrange & Hfam).
  unfold register_font. cbv zeta.
  destruct (font_key lower (font_stem f)) as [base style] eqn:Ek. cbn [fst snd].
  destruct (existsb (key_eqb (base, style)) (seen st)) eqn:Es;
    [unfold fonts_invariant; auto 10|].
  assert (Hnew : ~ In (base, style) (seen st)).
  { intros H. apply key_seen in H. congruence. }
  unfold fonts_invariant. cbn [registered seen regular_files add_font_calls].
  split; [|split; [|split; [|split; [|split; [|split]]]]].
  - rewrite registered_add_keys.
    destruct (str_in base (map fst (registered st))) eqn:Eb; [exact Hkeys|].
    apply NoDup_snoc; [exact Hkeys|]. intros H. apply str_in_In in H. congruence.
  - intros g s. rewrite styles_of_registered_add, in_app_iff.
    destruct (str_eqb g base) eqn:Eg.
    + apply str_eqb_eq in Eg. subst g. rewrite set_add_In, Hstyles. simpl.
      split; intros [H|H]; auto.
      * subst. auto.
      * destruct H as [H|[]]. inversion H. auto.
    + rewrite Hstyles. simpl. split; [auto|].
      intros [H|[H|[]]]; [exact H|]. inversion H. subst.
      rewrite str_eqb_refl in Eg. discriminate.
  - intros g Hg. apply in_app_iff in Hg. destruct Hg as [Hg|[Hg|[]]].
    + destruct (str_in style [[]; lit "regular"]); [|now apply Hreg].
      apply dict_get_setdefault. now apply Hreg.
    + inversion Hg. subst. cbn [str_in existsb str_eqb orb].
      apply dict_get_setdefault_key.
  - rewrite map_app, Hcalls. reflexivity.
  - now apply NoDup_snoc.
  - intros g s Hg. apply in_app_iff in Hg. destruct Hg as [Hg|[Hg|[]]].
    + now apply (Hrange g).
    + inversion Hg. subst.
      pose proof (proj1 (font_key_style lower (font_stem f))) as H.
      now rewrite Ek in H.
  - intros g. rewrite registered_add_keys.
    destruct (str_in base (map fst (registered st))) eqn:Eb.
    + split.
      * intros H. apply Hfam in H. destruct H as [s H]. exists s.
        apply in_or_app. now left.
      * intros [s H]. apply in_app_iff in H. destruct H as [H|[H|[]]].
        -- apply Hfam. now exists s.
        -- inversion H. subst. now apply str_in_In.
    + rewrite in_app_iff. split.
      * intros [H|[H|[]]].
        -- apply Hfam in H. destruct H as [s H]. exists s.
           apply in_or_app. now left.
        -- subst. exists style. apply in_or_app. right. now left.
      * intros [s H]. apply in_app_iff in H. destruct H as [H|[H|[]]].
        -- left. apply Hfam. now exists s.
        -- inversion H. subst. right. now left.
Qed.

Lemma fonts_invariant_fold lower (fonts : list font_file) : forall st,
  fonts_invariant st -> fonts_invariant (fold_left (register_font lower) fonts st).
Proof.
  induction fonts as [|f fonts IH]; intros st H; [exact H|].
  simpl. apply IH. now apply fonts_invariant_step.
Qed.

Lemma register_font_seen lower (st : font_state) (f : font_file) :
  In (font_key lower (font_stem f)) (seen (register_font lower st f))
  /\ (forall k, In k (seen st) -> In k (seen (register_font lower st f))).
Proof.
  unfold register_font. cbv zeta.
  destruct (existsb _ (seen st)) eqn:Es; cbn [seen].
  - split; [now apply key_seen|auto].
  - split; [apply in_or_app; right; now left|].
    intros k Hk. apply in_or_app. now left.
Qed.

Lemma register_fonts_seen lower (fonts : list font_file) : forall st,
  (forall k, In k (seen st) ->
             In k (seen (fold_left (register_font lower) fonts st)))
  /\ (forall f, In f fonts ->
                In (font_key lower (font_stem f))
                   (seen (fold_left (register_font lower) fonts st))).
Proof.
  induction fonts as [|f fonts IH]; intros st.
  - split; [auto|intros f []].
  - cbn [fold_left]. destruct (IH (register_font lower st f)) as (Hmono & Hall).
    destruct (register_font_seen lower st f) as (Hkey & Hstep).
    split; [auto|]. intros g [->|Hg]; auto.
Qed.

Lemma str_in_app (x : str) (l1 l2 : list str) :
  str_in x (l1 ++ l2) = str_in x l1 || str_in x l2.
Proof. unfold str_in. apply existsb_app. Qed.

Lemma str_in_set_add (x y : str) (s : list str) :
  str_in x (set_add y s) = str_in x s || str_eqb x y.
Proof.
  unfold set_add. destruct (str_in y s) eqn:E.
  - destruct (str_eqb x y) eqn:Exy; [|now rewrite orb_false_r].
    apply str_eqb_eq in Exy. subst. now rewrite E.
  - rewrite str_in_app. unfold str_in at 2. cbn [existsb].
    now rewrite orb_false_r.
Qed.

Lemma complete_family_step (family regular_path fallback_style : str)
    (styles : list str) (calls : list add_font_call) :
  (if negb (str_in fallback_style styles)
   then (set_add fallback_style styles,
         calls ++ [(family, fallback_style, regular_path)])
   else (styles, calls))
  = (set_add fallback_style styles,
     calls ++ (if str_in fallback_style styles then []
               else [(family, fallback_style, regular_path)])).
Proof.
  unfold set_add. destruct (str_in fallback_style styles); cbn [negb].
  - now rewrite app_nil_r.
  - reflexivity.
Qed.

Lemma complete_family_result (family regular_path : str) (styles : list str)
    (calls : list add_font_call) :
  complete_family family regular_path (styles, calls)
  = (completed_styles styles,
     calls ++ map (fun fallback_style => (family, fallback_style, regular_path))
                (missing_styles styles)).
Proof.
  unfold complete_family, completed_styles, missing_styles.
  cbn [fold_left]. rewrite !complete_family_step. f_equal.
  rewrite !str_in_set_add.
  change (str_eqb (lit "I") (lit "B")) with false.
  change (str_eqb (lit "BI") (lit "B")) with false.
  change (str_eqb (lit "BI") (lit "I")) with false.
  rewrite !orb_false_r, <- !app_assoc. f_equal.
  cbn [filter].
  destruct (str_in (lit "B") styles); destruct (str_in (lit "I") styles);
    destruct (str_in (lit "BI") styles); reflexivity.
Qed.

Lemma complete_families_result (regular : list (str * str))
    (d : list (str * list str)) : forall calls,
  complete_families regular d calls
  = (map (fun entry =>
            (fst entry,
             match dict_get regular (fst entry) with
             | Some _ => completed_styles (snd entry)
             | None => snd entry
             end)) d,
     calls ++ flat_map (fallback_calls regular) d).
Proof.
  induction d as [|[family styles] d IH]; intros calls.
  - simpl. now rewrite app_nil_r.
  - cbn [complete_families map flat_map fst snd]. unfold fallback_calls at 1.
    cbn [fst snd].
    destruct (dict_get regular family) as [path|].
    + rewrite complete_family_result, IH. now rewrite <- app_assoc.
    + rewrite IH. reflexivity.
Qed.

Lemma styles_of_entry (d : list (str * list str)) (family : str) (styles : list str) :
  NoDup (map fst d) -> In (family, styles) d -> styles_of family d = styles.
Proof.
  induction d as [|[f s] d IH]; intros Hnd Hin; [destruct Hin|].
  cbn [map fst] in Hnd. inversion Hnd as [|? ? Hf Hd]; subst.
  cbn [styles_of]. destruct Hin as [E|Hin].
  - inversion E. subst. now rewrite str_eqb_refl.
  - destruct (str_eqb family f) eqn:Ef; [|now apply IH].
    apply str_eqb_eq in Ef. subst. exfalso. apply Hf.
    apply in_map_iff. now exists (f, styles).
Qed.

Lemma styles_of_completed (regular : list (str * str)) (d : list (str * list str))
    (family : str) :
  styles_of family
    (map (fun entry =>
            (fst entry,
             match dict_get regular (fst entry) with
             | Some _ => completed_styles (snd entry)
             | None => snd entry
             end)) d)
  = if str_in family (map fst d)
    then match dict_get regular family with
         | Some _ => completed_styles (styles_of family d)
         | None => styles_of family d
         end
    else [].
Proof.
  induction d as [|[f s] d IH]; [reflexivity|].
  cbn [map fst snd styles_of str_in existsb]. unfold str_in in IH.
  destruct (str_eqb family f) eqn:Ef; cbn [orb]; [|exact IH].
  apply str_eqb_eq in Ef. now subst.
Qed.

Lemma completed_styles_In (styles : list str) (s : str) :
  In s (completed_styles styles)
  <-> In s styles \/ In s [lit "B"; lit "I"; lit "BI"].
Proof.
  unfold completed_styles. rewrite !set_add_In. simpl. intuition.
Qed.

(** Fonts are missing exactly when there is no font file.  Otherwise the
    families are distinct, every font file is registered under its family
    and style, every style is one of the four, and a family that has a
    regular face has the bold, italic and bold italic styles too. *)
Theorem register_available_fonts_result lower (fonts : list font_file) :
  let r := register_available_fonts lower fonts in
  (fst r = None <-> fonts = [])
  /\ (fonts = [] -> snd r = [])
  /\ (forall d,
        fst r = Some d ->
        NoDup (map fst d)
        /\ (forall f, In f fonts ->
                      In (snd (font_key lower (font_stem f)))
                         (styles_of (fst (font_key lower (font_stem f))) d))
        /\ (forall family s, In s (styles_of family d) -> In s font_styles)
        /\ (forall family,
              In [] (styles_of family d) ->
              In (lit "B") (styles_of family d)
              /\ In (lit "I") (styles_of family d)
              /\ In (lit "BI") (styles_of family d))).
Proof.
  cbv zeta. unfold register_available_fonts. cbv zeta.
  set (st := fold_left (register_font lower) fonts (mk_font_state [] [] [] [])).
  assert (Hinv : fonts_invariant st)
    by (apply fonts_invariant_fold, fonts_invariant_init).
  destruct Hinv as (Hkeys & Hstyles & Hreg & Hcalls & Hseen & Hrange & Hfam).
  destruct (register_fonts_seen lower fonts (mk_font_state [] [] [] []))
    as (_ & Hall). fold st in Hall.
  rewrite complete_families_result.
  destruct (registered st) as [|e reg] eqn:Er.
  - cbn [fst snd]. split; [|split].
    + split; [intros _|reflexivity].
      destruct fonts as [|f fonts]; [reflexivity|exfalso].
      specialize (Hall f (or_introl eq_refl)).
      destruct (font_key lower (font_stem f)) as [base style].
      assert (H : In base (map fst (@nil (str * list str))))
        by (apply Hfam; now exists style).
      destruct H.
    + intros ->. reflexivity.
    + discriminate.
  - rewrite <- Er in *. cbn [fst snd]. split; [|split].
    + split; [discriminate|]. intros ->. subst st. simpl in Er. discriminate Er.
    + intros ->. subst st. simpl in Er. discriminate Er.
    + intros d E. injection E as <-.
      split; [|split; [|split]].
      * rewrite map_map. cbn [fst]. exact Hkeys.
      * intros f Hf. specialize (Hall f Hf).
        destruct (font_key lower (font_stem f)) as [base style]. cbn [fst snd].
        rewrite styles_of_completed.
        assert (Hb : str_in base (map fst (registered st)) = true)
          by (apply str_in_In, Hfam; now exists style).
        rewrite Hb. apply Hstyles in Hall.
        destruct (dict_get (regular_files st) base); [|exact Hall].
        apply completed_styles_In. now left.
      * intros family s. rewrite styles_of_completed.
        destruct (str_in family (map fst (registered st))); [|intros []].
        destruct (dict_get (regular_files st) family).
        -- rewrite completed_styles_In. intros [H|H].
           ++ apply (Hrange family). now apply Hstyles.
           ++ unfold font_styles. simpl in *. intuition.
        -- intros H. apply (Hrange family). now apply Hstyles.
      * intros family. rewrite styles_of_completed.
        destruct (str_in family (map fst (registered st))); [|intros []].
        destruct (dict_get (regular_files st) family) eqn:Eg.
        -- intros _. rewrite !completed_styles_In. simpl. auto 10.
        -- intros H. apply Hstyles, Hreg in H. congruence.
Qed.

Lemma fallback_calls_keys (regular : list (str * str)) (entry : str * list str)
    (k : str * str) :
  In k (map call_key (fallback_calls regular entry)) ->
  fst k = fst entry /\ ~ In (snd k) (snd entry).
Proof.
  unfold fallback_calls. destruct (dict_get regular (fst entry)); [|intros []].
  rewrite map_map. intros H. apply in_map_iff in H as (fb & <- & Hfb).
  unfold missing_styles in Hfb. apply filter_In in Hfb as [_ Hfb].
  apply negb_true_iff in Hfb. unfold call_key. cbn [fst snd].
  split; [reflexivity|]. intros H. apply str_in_In in H. congruence.
Qed.

Lemma fallback_calls_NoDup (regular : list (str * str)) (entry : str * list str) :
  NoDup (map call_key (fallback_calls regular entry)).
Proof.
  unfold fallback_calls. destruct (dict_get regular (fst entry)); [|constructor].
  rewrite map_map. unfold call_key. cbn [fst snd].
  apply NoDup_map_NoDup_ForallPairs.
  - intros x y _ _ E. now inversion E.
  - unfold missing_styles. apply NoDup_filter.
    repeat constructor; simpl; intuition discriminate.
Qed.

Lemma fallback_keys_NoDup (regular : list (str * str)) (d : list (str * list str)) :
  NoDup (map fst d) ->
  NoDup (map call_key (flat_map (fallback_calls regular) d)).
Proof.
  induction d as [|e d IH]; intros Hnd; [constructor|].
  cbn [map] in Hnd. inversion Hnd as [|? ? He Hd]; subst.
  cbn [flat_map]. rewrite map_app. apply NoDup_app.
  - apply fallback_calls_NoDup.
  - now apply IH.
  - intros k Hk Hk'. apply fallback_calls_keys in Hk as [Hfam _].
    apply in_map_iff in Hk' as (c & <- & Hc).
    apply in_flat_map in Hc as (e' & He' & Hc).
    assert (H : fst (call_key c) = fst e').
    { apply (fallback_calls_keys regular e' (call_key c)).
      apply in_map_iff. now exists c. }
    apply He. rewrite <- Hfam, H. apply in_map_iff. now exists e'.
Qed.

(** No family and style is ever registered twice: the calls of
    [add_font] have distinct pairs of family and style. *)
Theorem add_font_calls_distinct lower (fonts : list font_file) :
  NoDup (map call_key (snd (register_available_fonts lower fonts))).
Proof.
  unfold register_available_fonts. cbv zeta.
  set (st := fold_left (register_font lower) fonts (mk_font_state [] [] [] [])).
  assert (Hinv : fonts_invariant st)
    by (apply fonts_invariant_fold, fonts_invariant_init).
  destruct Hinv as (Hkeys & Hstyles & Hreg & Hcalls & Hseen & Hrange & Hfam).
  rewrite complete_families_result.
  destruct (registered st) as [|e reg] eqn:Er; cbn [snd].
  - now rewrite Hcalls.
  - rewrite <- Er in *. rewrite map_app, Hcalls. apply NoDup_app.
    + exact Hseen.
    + now apply fallback_keys_NoDup.
    + intros [family style] Hk Hk'.
      apply in_map_iff in Hk' as (c & Ec & Hc).
      apply in_flat_map in Hc as ([family' styles] & He' & Hc).
      assert (H : fst (call_key c) = family' /\ ~ In (snd (call_key c)) styles).
      { apply (fallback_calls_keys (regular_files st) (family', styles) (call_key c)).
        apply in_map_iff. now exists c. }
      rewrite Ec in H. cbn [fst snd] in H. destruct H as (-> & Hnot).
      apply Hnot. rewrite <- (styles_of_entry _ _ _ Hkeys He').
      now apply Hstyles.
Qed.

Lemma register_available_fonts_result_witness :
  In (lit "B")
     (styles_of (lit "DejaVuSans")
        [(lit "DejaVuSans", [[]; lit "B"; lit "I"; lit "BI"])])
  /\ In (lit "I")
       (styles_of (lit "DejaVuSans")
          [(lit "DejaVuSans", [[]; lit "B"; lit "I"; lit "BI"])])
  /\ In (lit "BI")
       (styles_of (lit "DejaVuSans")
          [(lit "DejaVuSans", [[]; lit "B"; lit "I"; lit "BI"])]).
Proof.
  refine (proj2 (proj2 (proj2
            (proj2 (proj2 (register_available_fonts_result ascii_lower
                             [mk_font (lit "DejaVuSans") (lit "DejaVuSans.ttf");
                              mk_font (lit "DejaVuSans-Bold")
                                (lit "DejaVuSans-Bold.ttf")]))
               [(lit "DejaVuSans", [[]; lit "B"; lit "I"; lit "BI"])] eq_refl)))
            (lit "DejaVuSans") _).
  left. reflexivity.
Defined.

(** ** Text that does not vanish *)

Lemma yi_sub_nil (s : str) : forall run, yi_sub run s = [] -> run = [] /\ s = [].
Proof.
  induction s as [|c s IH]; intros run; cbn [yi_sub].
  - destruct run; [auto|discriminate].
  - destruct (is_yi c).
    + intros H. apply IH in H as [H _]. now destruct run.
    + intros H. apply app_eq_nil in H as [_ H]. discriminate H.
Qed.

(** A text leaf renders to the empty string only when it is empty, and
    its rendering is never shorter than the text. *)
Theorem render_text_nonempty lower (t : str) :
  (_render_node lower (Text t) = [] <-> t = [])
  /\ (List.length t <= List.length (_render_node lower (Text t)))%nat.
Proof.
  rewrite render_text_pipeline. split.
  - split; [|intros ->; reflexivity].
    intros H. apply yi_sub_nil in H as [_ H].
    destruct t as [|c t]; [reflexivity|exfalso].
    cbn [normalize_nbsp map flat_map] in H.
    apply app_eq_nil in H as [H _].
    unfold escape_cp in H.
    repeat match type of H with
           | context [if ?b then _ else _] => destruct b
           end; discriminate H.
  - assert (Hesc : forall s, (List.length s <= List.length (flat_map escape_cp s))%nat).
    { induction s as [|c s IH]; [simpl; lia|].
      cbn [flat_map]. rewrite length_app. cbn [List.length].
      assert (1 <= List.length (escape_cp c))%nat; [|lia].
      unfold escape_cp.
      repeat match goal with
             | |- context [if ?b then _ else _] => destruct b
             end; simpl; lia. }
    assert (Hyi : forall s run,
               (List.length run + List.length s <= List.length (yi_sub run s))%nat).
    { induction s as [|c s IH]; intros run; cbn [yi_sub].
      - destruct run as [|r run]; [simpl; lia|].
        unfold flush, repl. rewrite !length_app. simpl. lia.
      - destruct (is_yi c).
        + specialize (IH (run ++ [c])). rewrite length_app in IH. simpl in *. lia.
        + specialize (IH []). rewrite length_app. cbn [List.length] in *.
          assert (List.length run <= List.length (flush run))%nat; [|lia].
          destruct run as [|r run]; [simpl; lia|].
          unfold flush, repl. rewrite !length_app. simpl. lia. }
    unfold _wrap_yi_sequences.
    specialize (Hyi (flat_map escape_cp (normalize_nbsp t)) []).
    specialize (Hesc (normalize_nbsp t)).
    unfold normalize_nbsp in *. rewrite length_map in Hesc. simpl in Hyi. lia.
Qed.

(** ** The overview scrape: failures *)

Section ScrapeErrors.

Variable is_digit : N -> bool.
Variable urljoin : str -> str -> str.
Variable _clean_part_title : str -> str.
Variable http_get : str -> option str -> option response.
Variable parse_overview : str -> overview_page.

(** The failures the overview scrape raises itself.  When the request
    raises or its status is bad, the scrape fails after that one request.
    When the request is answered, a page without a title raises the
    [RuntimeError] before any part link is looked at, whatever the links
    are; and a page with a title and no part link raises the
    [RuntimeError] too.  In each case the story URL has been requested and
    nothing else. *)
Theorem scrape_story_overview_errors (url : str) (log : list event) :
  let r := scrape_story_overview is_digit urljoin _clean_part_title http_get
             parse_overview url log in
  (http_get url None = None
   \/ (exists resp, http_get url None = Some resp /\ status_raises resp = true) ->
   exists e, r = (log ++ [Request url None], inl e))
  /\ (forall resp,
        http_get url None = Some resp -> status_raises resp = false ->
        page_title (parse_overview (resp_text resp)) = None ->
        r = (log ++ [Request url None], inl RuntimeError))
  /\ (forall resp title,
        http_get url None = Some resp -> status_raises resp = false ->
        page_title (parse_overview (resp_text resp)) = Some title ->
        part_anchors (parse_overview (resp_text resp)) = [] ->
        r = (log ++ [Request url None], inl RuntimeError)).
Proof.
  cbv zeta. unfold scrape_story_overview. rewrite bind_unfold. unfold session_get.
  split; [|split].
  - intros [Hget|(resp & Hget & Hst)].
    + rewrite Hget. eexists. reflexivity.
    + rewrite Hget, Hst. eexists. reflexivity.
  - intros resp Hget Hst Ht. rewrite Hget, Hst, Ht. reflexivity.
  - intros resp title Hget Hst Ht Hanchors.
    rewrite Hget, Hst, Ht, Hanchors. reflexivity.
Qed.

End ScrapeErrors.

Lemma scrape_story_overview_errors_witness :
  scrape_story_overview ascii_digit sample_urljoin (fun t => t) sample_http_get
    (fun _ => mk_overview None (Some (lit " - Wattpad")) (Some (lit "  "))
                [(lit "/about", lit "About")])
    sample_url []
  = ([] ++ [Request sample_url None], inl RuntimeError).
Proof.
  apply (proj1 (proj2 (scrape_story_overview_errors ascii_digit sample_urljoin
                         (fun t => t) sample_http_get
                         (fun _ => mk_overview None (Some (lit " - Wattpad"))
                                     (Some (lit "  "))
                                     [(lit "/about", lit "About")])
                         sample_url []))
           (mk_response false (lit "text/html") (lit "overview") None)).
  - reflexivity.
  - reflexivity.
  - reflexivity.
Defined.

Lemma main_requests_witness :
  let r := sample_main sample_url [] in
  (exists e,
      scrape_story_overview ascii_digit sample_urljoin (fun title => title)
        sample_http_get sample_parse_overview sample_url []
      = ([Request sample_url None], inl e)
      /\ r = ([Request sample_url None], inl e))
  \/ exists title parts,
       scrape_story_overview ascii_digit sample_urljoin (fun title => title)
         sample_http_get sample_parse_overview sample_url []
       = ([Request sample_url None], inr (title, parts))
       /\ ((exists chapters,
               r = (Request sample_url None :: map part_request parts,
                    inr (title, chapters))
               /\ Forall2
                    (fun p c =>
                       chapter_title c = raw_chapter_title p
                       /\ fetch_outcome ascii_lower sample_http_get
                            sample_parse_html (part_id p)
                          = inr (chapter_blocks c))
                    parts chapters)
           \/ (exists before p after e,
                 parts = before ++ p :: after
                 /\ Forall
                      (fun q => exists blocks,
                                  fetch_outcome ascii_lower sample_http_get
                                    sample_parse_html (part_id q)
                                  = inr blocks)
                      before
                 /\ fetch_outcome ascii_lower sample_http_get sample_parse_html
                      (part_id p) = inl e
                 /\ r = (Request sample_url None
                         :: map part_request (before ++ [p]),
                         inl e))).
Proof.
  exact (main_requests ascii_lower ascii_digit sample_urljoin (fun title => title)
           sample_http_get sample_parse_overview sample_parse_html sample_url).
Defined.
